(** * XRT address translator (xocl/subdev/address_translator.c)

    A shallow embedding of the register programming logic of the PCIe
    address-translation unit, and the properties of its two operations,
    [addr_translator_get_entries_num] and [addr_translator_set_page_table],
    and of the sysfs attribute [num_show]. *)

From Stdlib Require Import ZArith List String Ascii Lia Bool.
From stdpp Require Import base relations option list gmap.

Local Open Scope Z_scope.

(** ** Machine integers *)

(** [uint32_t] and [uint64_t] values are integers reduced modulo the width. *)
Definition u32 (z : Z) : Z := z mod 2 ^ 32.
Definition u64 (z : Z) : Z := z mod 2 ^ 64.

Definition EINVAL : Z := 22.

(** ** Register layout: [struct trans_regs]

    Every member is a [u32] (or a pair of them), so the structure has no
    implicit padding and a member's offset is the sum of the sizes before it. *)
Module Layout.

Definition sizeof_u32 : Z := 4.
(** [struct trans_addr { u32 lo; u32 hi; }] *)
Definition sizeof_trans_addr : Z := sizeof_u32 + sizeof_u32.
Definition lo (a : Z) : Z := a.
Definition hi (a : Z) : Z := a + sizeof_u32.

Definition ver : Z := 0.
Definition cap : Z := ver + sizeof_u32.
Definition entry_num : Z := cap + sizeof_u32.
Definition unused : Z := entry_num + sizeof_u32.
Definition base_addr : Z := unused + sizeof_u32.
Definition addr_range : Z := base_addr + sizeof_trans_addr.
Definition padding : Z := addr_range + sizeof_u32.
(** [u8 padding[2020]] *)
Definition page_table_phys_0 : Z := padding + 2020.
(** [struct trans_addr page_table_phys[256]] *)
Definition page_table_len : Z := 256.
Definition page_table_phys (i : Z) : Z := page_table_phys_0 + sizeof_trans_addr * i.
Definition sizeof_trans_regs : Z := page_table_phys page_table_len.

End Layout.

(** ** Commands of the driver

    The driver's functions act on the device only through 32-bit register
    reads and writes and through the instance's mutex.  A function is the
    tree of these commands; [Fault] is a load past the end of the caller's
    array. *)
Inductive io (R : Type) : Type :=
| Ret (r : R)
| Read32 (addr : Z) (k : Z -> io R)
| Write32 (val : Z) (addr : Z) (k : io R)
| MutexLock (k : io R)
| MutexUnlock (k : io R)
| Fault.

Arguments Ret {R} r.
Arguments Read32 {R} addr k.
Arguments Write32 {R} val addr k.
Arguments MutexLock {R} k.
Arguments MutexUnlock {R} k.
Arguments Fault {R}.

Fixpoint bind {A B : Type} (p : io A) (f : A -> io B) : io B :=
  match p with
  | Ret r => f r
  | Read32 a k => Read32 a (fun v => bind (k v) f)
  | Write32 v a k => Write32 v a (bind k f)
  | MutexLock k => MutexLock (bind k f)
  | MutexUnlock k => MutexUnlock (bind k f)
  | Fault => Fault
  end.

(** Modelled from the spec: [xocl_dr_reg_read32], [xocl_dr_reg_write32]
    ([xocl_drv.h]) and the kernel's [mutex_lock], [mutex_unlock] are not in
    the source slice; they are the register file's [read32(offset)] and
    [write32(offset, value)] and the serialization guard. *)
Definition xocl_dr_reg_read32 (addr : Z) : io Z := Read32 addr Ret.
Definition xocl_dr_reg_write32 (val : Z) (addr : Z) : io unit := Write32 val addr (Ret tt).
Definition mutex_lock : io unit := MutexLock (Ret tt).
Definition mutex_unlock : io unit := MutexUnlock (Ret tt).

Declare Scope io_scope.
Delimit Scope io_scope with io.
Notation "x <- p ;; q" := (bind p (fun x => q))
  (at level 100, p at next level, right associativity) : io_scope.
Notation "p ;; q" := (bind p (fun _ => q))
  (at level 100, right associativity) : io_scope.
Local Open Scope io_scope.

(** ** Sequential execution on a register file

    The register window maps a byte offset to the 32-bit value held there;
    an offset never written reads as 0.  A run returns the result, the final
    registers and the writes it made, oldest first. *)
Definition read32 (m : gmap Z Z) (addr : Z) : Z := default 0 (m !! addr).
Definition write32 (m : gmap Z Z) (addr val : Z) : gmap Z Z := <[addr := u32 val]> m.

Fixpoint run {R : Type} (p : io R) (m : gmap Z Z) : option (R * gmap Z Z * list (Z * Z)) :=
  match p with
  | Ret r => Some (r, m, [])
  | Read32 a k => run (k (read32 m a)) m
  | Write32 v a k =>
      match run k (write32 m a v) with
      | Some (r, m', t) => Some (r, m', (a, u32 v) :: t)
      | None => None
      end
  | MutexLock k => run k m
  | MutexUnlock k => run k m
  | Fault => None
  end.

(** ** Kernel helpers

    [is_power_of_2] and [ilog2] ([linux/log2.h]) and [fls64]
    ([linux/bitops.h]) belong to the Linux kernel, not to the driver; they
    are written here as the kernel defines them. *)

(** [is_power_of_2(unsigned long n)]: [n != 0 && ((n & (n - 1)) == 0)]. *)
Definition is_power_of_2 (n : Z) : bool :=
  negb (n =? 0) && (Z.land n (n - 1) =? 0).

(** [fls64(x)]: 0 for 0, otherwise one more than the index of the highest
    set bit. *)
Definition fls64 (x : Z) : Z := if x =? 0 then 0 else Z.log2 x + 1.

(** [ilog2(n)] of a 64-bit run-time value is [fls64(n) - 1]. *)
Definition ilog2 (n : Z) : Z := fls64 n - 1.

(** [sprintf("%x")] of an [unsigned int]: lower-case digits, most significant
    first, no leading zero. *)
Definition hex_digit (d : Z) : ascii :=
  nth (Z.to_nat d) (list_ascii_of_string "0123456789abcdef") "?"%char.

Fixpoint hex_digits (more : nat) (n : Z) (acc : string) : string :=
  let acc' := String (hex_digit (n mod 16)) acc in
  match more with
  | O => acc'
  | S more' => if n / 16 =? 0 then acc' else hex_digits more' (n / 16) acc'
  end.

Definition sprintf_x (n : Z) : string := hex_digits 7 (u32 n) "".

(** ** The driver *)

(** [(cap >> 16 & 0x1ff)] *)
Definition max_num_apertures (cap : Z) : Z := Z.land (Z.shiftr cap 16) 0x1ff.

Definition addr_translator_get_entries_num : io Z :=
  mutex_lock ;;
  cap <- xocl_dr_reg_read32 Layout.cap ;;
  let num := max_num_apertures cap in
  mutex_unlock ;;
  Ret num.

(** The [for] loop of [addr_translator_set_page_table], with [todo] turns
    left ([num - i]); [rest] is the code after the loop, and a zero address
    leaves for [done] with [-EINVAL]. *)
Fixpoint page_table_loop (phys_addrs : list Z) (todo : nat) (i : Z) (rest : io Z) : io Z :=
  match todo with
  | O => rest
  | S todo' =>
      match phys_addrs !! Z.to_nat i with
      | None => Fault
      | Some addr =>
          if addr =? 0 then Ret (- EINVAL)
          else
            xocl_dr_reg_write32 (Z.land addr 0xFFFFFFFF)
              (Layout.lo (Layout.page_table_phys i)) ;;
            let addr := Z.shiftr addr 32 in
            xocl_dr_reg_write32 addr (Layout.hi (Layout.page_table_phys i)) ;;
            page_table_loop phys_addrs todo' (i + 1) rest
      end
  end.

Definition addr_translator_set_page_table
    (phys_addrs : list Z) (base_addr entry_sz num : Z) : io Z :=
  let range := u64 (num * entry_sz) in
  mutex_lock ;;
  ret <- (cap <- xocl_dr_reg_read32 Layout.cap ;;
          let num_max := max_num_apertures cap in
          if num >? num_max then Ret (- EINVAL)
          else if negb (is_power_of_2 num) then Ret (- EINVAL)
          else
            page_table_loop phys_addrs (Z.to_nat num) 0
              (xocl_dr_reg_write32 (Z.land base_addr 0xFFFFFFFF)
                 (Layout.lo Layout.base_addr) ;;
               xocl_dr_reg_write32 (Z.land (Z.shiftr base_addr 32) 0xFFFFFFFF)
                 (Layout.hi Layout.base_addr) ;;
               let range_in_log := u32 (ilog2 range) in
               xocl_dr_reg_write32 range_in_log Layout.addr_range ;;
               xocl_dr_reg_write32 num Layout.entry_num ;;
               Ret 0)) ;;
  mutex_unlock ;;
  Ret ret.

(** [num_show]: the text put in [buf] and the length returned. *)
Definition num_show : io (Z * string) :=
  num <- addr_translator_get_entries_num ;;
  let buf := ("0x" ++ sprintf_x num ++ String "010" "")%string in
  Ret (Z.of_nat (String.length buf), buf).

(** ** Concurrent calls on one instance

    Threads run their command trees one command at a time, in any order,
    on the shared registers.  [mutex_lock] can be taken only while the mutex
    is free; [mutex_unlock] is done by the owner.  Each write is recorded
    with the thread that made it. *)
Record instance : Type := Instance {
  regs : gmap Z Z;
  log : list (nat * (Z * Z));
  owner : option nat
}.

Inductive thread_step (tid : nat) : instance -> io Z -> instance -> io Z -> Prop :=
| step_read s a k :
    thread_step tid s (Read32 a k) s (k (read32 (regs s) a))
| step_write s v a k :
    thread_step tid s (Write32 v a k)
      (Instance (write32 (regs s) a v) (log s ++ [(tid, (a, u32 v))]) (owner s)) k
| step_lock s k :
    owner s = None ->
    thread_step tid s (MutexLock k) (Instance (regs s) (log s) (Some tid)) k
| step_unlock s k :
    owner s = Some tid ->
    thread_step tid s (MutexUnlock k) (Instance (regs s) (log s) None) k.

Inductive pool_step : instance * list (io Z) -> instance * list (io Z) -> Prop :=
| pool_step_thread tid s ts p s' p' :
    ts !! tid = Some p ->
    thread_step tid s p s' p' ->
    pool_step (s, ts) (s', <[tid := p']> ts).

(** The two operations a caller can invoke on an instance. *)
Inductive call : Type :=
| Configure (phys_addrs : list Z) (base_addr entry_sz num : Z)
| QueryCapacity.

Definition call_prog (c : call) : io Z :=
  match c with
  | Configure phys_addrs base_addr entry_sz num =>
      addr_translator_set_page_table phys_addrs base_addr entry_sz num
  | QueryCapacity => addr_translator_get_entries_num
  end.

Definition idle (m : gmap Z Z) : instance := Instance m [] None.

(** ** Notions used in the statements *)

(** [k] is the integer part of the base-2 logarithm of [r]. *)
Definition floor_log2 (r k : Z) : Prop := 0 <= k /\ 2 ^ k <= r < 2 ^ (k + 1).

(** Value of a string of lower-case hexadecimal digits. *)
Definition hex_digit_value (c : ascii) : Z :=
  let n := Z.of_N (N_of_ascii c) in
  if (48 <=? n) && (n <=? 57) then n - 48
  else if (97 <=? n) && (n <=? 102) then n - 87
  else 0.

Fixpoint hex_value (s : string) (acc : Z) : Z :=
  match s with
  | EmptyString => acc
  | String c s' => hex_value s' (16 * acc + hex_digit_value c)
  end.

(** The 64-bit value held by a [struct trans_addr] at offset [a]. *)
Definition read_trans_addr (m : gmap Z Z) (a : Z) : Z :=
  Z.lor (read32 m a) (Z.shiftl (read32 m (a + 4)) 32).

(** The two register writes that store [addr] in [page_table_phys[i]]. *)
Definition entry_writes (i addr : Z) : list (Z * Z) :=
  [ (Layout.lo (Layout.page_table_phys i), u32 (Z.land addr 0xFFFFFFFF));
    (Layout.hi (Layout.page_table_phys i), u32 (Z.shiftr addr 32)) ].

(** The writes of [todo] turns of the loop from index [i]. *)
Fixpoint loop_writes (phys_addrs : list Z) (todo : nat) (i : Z) : list (Z * Z) :=
  match todo with
  | O => []
  | S todo' =>
      entry_writes i (default 0 (phys_addrs !! Z.to_nat i))
        ++ loop_writes phys_addrs todo' (i + 1)
  end.

(** The registers after a list of writes, oldest first. *)
Definition replay (t : list (Z * Z)) (m : gmap Z Z) : gmap Z Z :=
  foldl (fun m w => <[w.1 := w.2]> m) m t.

(** The writes after the loop: base address, range, and entry count last. *)
Definition commit_writes (base_addr entry_sz num : Z) : list (Z * Z) :=
  [ (Layout.lo Layout.base_addr, u32 (Z.land base_addr 0xFFFFFFFF));
    (Layout.hi Layout.base_addr, u32 (Z.land (Z.shiftr base_addr 32) 0xFFFFFFFF));
    (Layout.addr_range, u32 (ilog2 (u64 (num * entry_sz))));
    (Layout.entry_num, u32 num) ].

(** [phys_addrs[j]] exists and is not zero. *)
Definition entry_ok (phys_addrs : list Z) (j : Z) : Prop :=
  exists a, phys_addrs !! Z.to_nat j = Some a /\ a <> 0.

(** Every write a command tree can make, on any path, is to an offset in [P]. *)
Inductive writes_within {R : Type} (P : Z -> Prop) : io R -> Prop :=
| ww_ret r : writes_within P (Ret r)
| ww_read a k : (forall v, writes_within P (k v)) -> writes_within P (Read32 a k)
| ww_write v a k : P a -> writes_within P k -> writes_within P (Write32 v a k)
| ww_lock k : writes_within P k -> writes_within P (MutexLock k)
| ww_unlock k : writes_within P k -> writes_within P (MutexUnlock k)
| ww_fault : writes_within P Fault.

(** The offsets of [struct trans_regs] that the driver programs. *)
Definition in_page_table (a : Z) : Prop :=
  exists i, 0 <= i <= 255 /\ (a = 0x800 + 8 * i \/ a = 0x800 + 8 * i + 4).

Definition control_reg (a : Z) : Prop :=
  a = 0x8 \/ a = 0x10 \/ a = 0x14 \/ a = 0x18.

(** The body of a critical section: register accesses, then [mutex_unlock]
    and return, on every path. *)
Inductive guarded : io Z -> Prop :=
| guarded_read a k : (forall v, guarded (k v)) -> guarded (Read32 a k)
| guarded_write v a k : guarded k -> guarded (Write32 v a k)
| guarded_unlock r : guarded (MutexUnlock (Ret r))
| guarded_fault : guarded Fault.

(** Calls run one after another, in the order of the list, each paired with
    its result; the writes carry the call's thread. *)
Inductive serial (ts : list (io Z)) :
    gmap Z Z -> list (nat * Z) -> gmap Z Z -> list (nat * (Z * Z)) -> Prop :=
| serial_nil m : serial ts m [] m []
| serial_cons m i p r m1 t1 done m2 t2 :
    ts !! i = Some p ->
    run p m = Some (r, m1, t1) ->
    serial ts m1 done m2 t2 ->
    serial ts m ((i, r) :: done) m2 (map (pair i) t1 ++ t2).

(** A call is a critical section: [mutex_lock], then a guarded body. *)
Definition critical (p : io Z) : Prop := exists b, p = MutexLock b /\ guarded b.

(** What holds of every state the pool [ts0] can reach from registers [m0]:
    the calls in [done] have run one after another and returned; either the
    mutex is free and the others have not started, or thread [h] owns it,
    has made the writes [l] of its body [b] so far, and the others have not
    started. *)
Inductive pool_inv (ts0 : list (io Z)) (m0 : gmap Z Z) : instance -> list (io Z) -> Prop :=
| inv_free done m_d t_d ts :
    serial ts0 m0 done m_d t_d ->
    NoDup done.*1 ->
    (forall i r, (i, r) ∈ done -> ts !! i = Some (Ret r)) ->
    (forall i, i ∉ done.*1 -> ts !! i = ts0 !! i) ->
    pool_inv ts0 m0 (Instance m_d t_d None) ts
| inv_held done m_d t_d ts h p b l m :
    serial ts0 m0 done m_d t_d ->
    NoDup done.*1 ->
    (forall i r, (i, r) ∈ done -> ts !! i = Some (Ret r)) ->
    h ∉ done.*1 ->
    ts !! h = Some p ->
    ts0 !! h = Some (MutexLock b) ->
    guarded p ->
    (forall r mf t, run p m = Some (r, mf, t) -> run b m_d = Some (r, mf, l ++ t)) ->
    (forall i, i ∉ done.*1 -> i <> h -> ts !! i = ts0 !! i) ->
    pool_inv ts0 m0 (Instance m (t_d ++ map (pair h) l) (Some h)) ts.

(** No path of the command tree ends in a load past the caller's array. *)
Inductive fault_free {R : Type} : io R -> Prop :=
| ff_ret r : fault_free (Ret r)
| ff_read a k : (forall v, fault_free (k v)) -> fault_free (Read32 a k)
| ff_write v a k : fault_free k -> fault_free (Write32 v a k)
| ff_lock k : fault_free k -> fault_free (MutexLock k)
| ff_unlock k : fault_free k -> fault_free (MutexUnlock k).

(** The caller's array holds at least [num] addresses. *)
Definition call_in_bounds (c : call) : Prop :=
  match c with
  | Configure phys_addrs _ _ num => num <= Z.of_nat (length phys_addrs)
  | QueryCapacity => True
  end.

(** Whether a thread has returned. *)
Definition returned (p : io Z) : bool :=
  match p with
  | Ret _ => true
  | _ => false
  end.

(** ** Attaching and detaching the device

    [addr_translator_probe] and [addr_translator_remove] act on the platform
    device through kernel services.  The device is what those services
    keep: its memory resource, its driver data, its live device-managed
    allocations, the windows mapped by [ioremap_nocache] and not yet
    unmapped, and whether the sysfs attribute group exists. *)
Definition ENOMEM : Z := 12.
Definition EIO : Z := 5.

(** [struct addr_translator]; [base] is the mapped window (start, size),
    [None] for NULL. *)
Record addr_translator : Type := AddrTranslator {
  base : option (Z * Z);
  dev : bool;
  lock : bool;
  online : bool
}.

Record platform_device : Type := PlatformDevice {
  mem_resource : option (Z * Z);
  drvdata : option addr_translator;
  devm_live : nat;
  iomapped : list (Z * Z);
  sysfs_group : bool
}.

(** What the kernel services that can fail answer during one probe:
    [devm_kzalloc] and [ioremap_nocache] give NULL or not, and
    [sysfs_create_group] gives 0 or an error code. *)
Record kernel_answers : Type := KernelAnswers {
  kzalloc_ok : bool;
  ioremap_ok : bool;
  sysfs_create_group_err : Z
}.

(** [iounmap]: the window is no longer mapped. *)
Fixpoint iounmap (w : Z * Z) (l : list (Z * Z)) : list (Z * Z) :=
  match l with
  | [] => []
  | x :: l' => if decide (x = w) then l' else x :: iounmap w l'
  end.

Definition addr_translator_probe (k : kernel_answers) (pdev : platform_device)
    : Z * platform_device :=
  let err := 0 in
  (* addr_translator = devm_kzalloc(...) *)
  if negb (kzalloc_ok k) then (- ENOMEM, pdev)
  else
    let pdev := PlatformDevice (mem_resource pdev) (drvdata pdev) (S (devm_live pdev))
                  (iomapped pdev) (sysfs_group pdev) in
    let at_dev := AddrTranslator None true false false in
    (* res = platform_get_resource(pdev, IORESOURCE_MEM, 0) *)
    match mem_resource pdev with
    | None => (err, pdev)
    | Some (res_start, res_end) =>
        (* addr_translator->base = ioremap_nocache(start, end - start + 1) *)
        if negb (ioremap_ok k) then (- EIO, pdev)
        else
          let window := (res_start, u64 (res_end - res_start + 1)) in
          let at_base := AddrTranslator (Some window) (dev at_dev) (lock at_dev)
                           (online at_dev) in
          let pdev := PlatformDevice (mem_resource pdev) (drvdata pdev) (devm_live pdev)
                        (window :: iomapped pdev) (sysfs_group pdev) in
          (* mutex_init; platform_set_drvdata *)
          let at_lock := AddrTranslator (base at_base) (dev at_base) true (online at_base) in
          let pdev := PlatformDevice (mem_resource pdev) (Some at_lock) (devm_live pdev)
                        (iomapped pdev) (sysfs_group pdev) in
          (* err = sysfs_create_group(...) *)
          let err := sysfs_create_group_err k in
          if negb (err =? 0) then
            (* create_addr_translator_failed: platform_set_drvdata(pdev, NULL) *)
            (err, PlatformDevice (mem_resource pdev) None (devm_live pdev)
                    (iomapped pdev) (sysfs_group pdev))
          else
            (0, PlatformDevice (mem_resource pdev) (drvdata pdev) (devm_live pdev)
                  (iomapped pdev) true)
    end.

Definition addr_translator_remove (pdev : platform_device) : Z * platform_device :=
  match drvdata pdev with
  | None => (- EINVAL, pdev)
  | Some at_dev =>
      (* sysfs_remove_group *)
      let pdev := PlatformDevice (mem_resource pdev) (drvdata pdev) (devm_live pdev)
                    (iomapped pdev) false in
      (* if (addr_translator->base) iounmap(addr_translator->base) *)
      let pdev :=
        match base at_dev with
        | Some window =>
            PlatformDevice (mem_resource pdev) (drvdata pdev) (devm_live pdev)
              (iounmap window (iomapped pdev)) (sysfs_group pdev)
        | None => pdev
        end in
      (* platform_set_drvdata(pdev, NULL); devm_kfree *)
      (0, PlatformDevice (mem_resource pdev) None (Nat.pred (devm_live pdev))
            (iomapped pdev) (sysfs_group pdev))
  end.

(** A register file whose capability register reports 256 apertures. *)
Definition regs_cap256 : gmap Z Z := {[ Layout.cap := 0x01000000 ]}.

(** ** Scenarios of the specification, run on the model *)

Example scenario1 :
  match run (addr_translator_set_page_table [0x1000; 0x2000; 0x3000; 0x4000]
               0x100000000 0x1000 4) regs_cap256 with
  | Some (ret, m, _) =>
      ret = 0 /\ read32 m 0x18 = 14 /\ read32 m 0x8 = 4 /\
      read32 m 0x10 = 0 /\ read32 m 0x14 = 1 /\ read32 m 0x808 = 0x2000
  | None => False
  end.
Proof. vm_compute. repeat split; reflexivity. Qed.

Example scenario2 :
  run (addr_translator_set_page_table [0x1000; 0x2000; 0x3000] 0 0x1000 3) regs_cap256
  = Some (- EINVAL, regs_cap256, []).
Proof. vm_compute. reflexivity. Qed.

Example scenario3 :
  match run (addr_translator_set_page_table [0x1000; 0x2000; 0x0; 0x4000]
               0x100000000 0x1000 4) regs_cap256 with
  | Some (ret, m, t) =>
      ret = - EINVAL /\
      t = [(0x800, 0x1000); (0x804, 0); (0x808, 0x2000); (0x80c, 0)]
  | None => False
  end.
Proof. vm_compute. repeat split; reflexivity. Qed.

Example num_show_cap256 :
  match run num_show (<[ Layout.entry_num := 4 ]> regs_cap256) with
  | Some (r, _, _) =>
      r = (6, String "0" (String "x" (String "1" (String "0" (String "0" (String "010" ""))))))
  | None => False
  end.
Proof. vm_compute. reflexivity. Qed.

(** ** Arithmetic of the kernel helpers *)

Section Arithmetic.

Lemma u32_small (z : Z) : 0 <= z < 2 ^ 32 -> u32 z = z.
Proof. intros H. unfold u32. apply Z.mod_small. exact H. Qed.

Lemma u32_range (z : Z) : 0 <= u32 z < 2 ^ 32.
Proof. unfold u32. apply Z.mod_pos_bound. lia. Qed.

Lemma u32_idem (z : Z) : u32 (u32 z) = u32 z.
Proof. unfold u32. apply Z.mod_mod. lia. Qed.

Lemma u64_range (z : Z) : 0 <= u64 z < 2 ^ 64.
Proof. unfold u64. apply Z.mod_pos_bound. lia. Qed.

(** The bit test of [is_power_of_2] is exact on every integer. *)
Lemma is_power_of_2_spec (n : Z) :
  is_power_of_2 n = true <-> exists k, 0 <= k /\ n = 2 ^ k.
Proof.
  unfold is_power_of_2. rewrite andb_true_iff, negb_true_iff, Z.eqb_neq, Z.eqb_eq.
  split.
  - intros [Hnz Hland].
    destruct (Z.lt_trichotomy n 0) as [Hneg | [H0 | Hpos]]; [ | contradiction | ].
    + assert (Z.land n (n - 1) < 0) by (apply Z.land_neg; lia). lia.
    + exists (Z.log2 n). split; [apply Z.log2_nonneg | ].
      destruct (Z.log2_spec n Hpos) as [Hlo Hhi].
      destruct (Z.eq_dec n (2 ^ Z.log2 n)) as [Heq | Hne]; [exact Heq | exfalso].
      pose proof (Z.pow_pos_nonneg 2 (Z.log2 n) ltac:(lia) (Z.log2_nonneg n)) as Hpow.
      assert (Hk : Z.log2 (n - 1) = Z.log2 n).
      { apply Z.log2_unique; [apply Z.log2_nonneg | ].
        replace (Z.succ (Z.log2 n)) with (Z.log2 n + 1) in * by lia. lia. }
      assert (Hb : Z.testbit (Z.land n (n - 1)) (Z.log2 n) = true).
      { rewrite Z.land_spec, Z.bit_log2 by lia.
        rewrite <- Hk. rewrite Z.bit_log2 by lia. reflexivity. }
      rewrite Hland, Z.bits_0 in Hb. discriminate.
  - intros (k & Hk & ->). split.
    + pose proof (Z.pow_pos_nonneg 2 k). lia.
    + replace (2 ^ k - 1) with (Z.ones k) by (rewrite Z.ones_equiv; lia).
      rewrite Z.land_ones by lia. apply Z.mod_same.
      pose proof (Z.pow_pos_nonneg 2 k). lia.
Qed.

Lemma max_num_apertures_mod (cap : Z) :
  max_num_apertures cap = (cap / 2 ^ 16) mod 2 ^ 9.
Proof.
  unfold max_num_apertures. change 0x1ff with (Z.ones 9).
  rewrite Z.land_ones, Z.shiftr_div_pow2 by lia. reflexivity.
Qed.

Lemma max_num_apertures_range (cap : Z) : 0 <= max_num_apertures cap <= 511.
Proof.
  rewrite max_num_apertures_mod.
  pose proof (Z.mod_pos_bound (cap / 2 ^ 16) (2 ^ 9)). lia.
Qed.

(** A power of two that fits the 9-bit field is at most 256. *)
Lemma power_of_2_below_field (num cap : Z) :
  num <= max_num_apertures cap -> is_power_of_2 num = true -> 1 <= num <= 256.
Proof.
  intros Hle Hp. apply is_power_of_2_spec in Hp as (k & Hk & ->).
  pose proof (max_num_apertures_range cap) as Hr.
  assert (k < 9).
  { apply (Z.pow_lt_mono_r_iff 2); lia. }
  assert (2 ^ k <= 2 ^ 8) by (apply Z.pow_le_mono_r; lia).
  pose proof (Z.pow_pos_nonneg 2 k). lia.
Qed.

(** [fls64] is the position, counted from 1, of the highest set bit. *)
Lemma fls64_highest_bit (x : Z) :
  0 < x ->
  Z.testbit x (fls64 x - 1) = true /\
  forall j : Z, fls64 x - 1 < j -> Z.testbit x j = false.
Proof.
  intros Hx. unfold fls64. destruct (Z.eqb_spec x 0) as [-> | _]; [lia | ].
  replace (Z.log2 x + 1 - 1) with (Z.log2 x) by lia. split.
  - apply Z.bit_log2. exact Hx.
  - intros j Hj. apply Z.bits_above_log2; lia.
Qed.

Lemma ilog2_floor (n : Z) : 0 < n -> ilog2 n = Z.log2 n /\ floor_log2 n (ilog2 n).
Proof.
  intros Hn. unfold ilog2, fls64.
  destruct (Z.eqb_spec n 0) as [-> | _]; [lia | ].
  replace (Z.log2 n + 1 - 1) with (Z.log2 n) by lia.
  split; [reflexivity | ]. unfold floor_log2.
  pose proof (Z.log2_spec n Hn). pose proof (Z.log2_nonneg n).
  replace (Z.log2 n + 1) with (Z.succ (Z.log2 n)) by lia. lia.
Qed.

Lemma ilog2_u64_range (n : Z) : 0 < n < 2 ^ 64 -> 0 <= ilog2 n < 64.
Proof.
  intros Hn. destruct (ilog2_floor n) as [-> _]; [lia | ].
  split; [apply Z.log2_nonneg | ]. apply Z.log2_lt_pow2; lia.
Qed.

(** Splitting a 64-bit value in two 32-bit registers loses nothing. *)
Lemma halves_join (a : Z) :
  0 <= a < 2 ^ 64 ->
  Z.lor (u32 (Z.land a 0xFFFFFFFF)) (Z.shiftl (u32 (Z.shiftr a 32)) 32) = a.
Proof.
  intros Ha. change 0xFFFFFFFF with (Z.ones 32).
  rewrite Z.land_ones by lia. unfold u32.
  rewrite Z.mod_mod by lia.
  rewrite (Z.mod_small (Z.shiftr a 32)).
  2:{ rewrite Z.shiftr_div_pow2 by lia. split.
      - apply Z.div_pos; lia.
      - apply Z.div_lt_upper_bound; lia. }
  apply Z.bits_inj'. intros n Hn.
  rewrite Z.lor_spec.
  destruct (Z.lt_ge_cases n 32) as [Hlt | Hge].
  - rewrite Z.mod_pow2_bits_low, Z.shiftl_spec_low by lia.
    apply orb_false_r.
  - rewrite Z.mod_pow2_bits_high, Z.shiftl_spec_high by lia.
    rewrite Z.shiftr_spec by lia. simpl. f_equal. lia.
Qed.

End Arithmetic.

(** ** The [%x] conversion *)

Section Hex.

Lemma hex_digit_value_digit (d : Z) :
  0 <= d < 16 -> hex_digit_value (hex_digit d) = d.
Proof.
  intros Hd.
  assert (H : d = 0 \/ d = 1 \/ d = 2 \/ d = 3 \/ d = 4 \/ d = 5 \/ d = 6 \/ d = 7 \/
              d = 8 \/ d = 9 \/ d = 10 \/ d = 11 \/ d = 12 \/ d = 13 \/ d = 14 \/ d = 15)
    by lia.
  repeat (destruct H as [-> | H]; [reflexivity | ]). subst d. reflexivity.
Qed.

Lemma hex_value_digits (more : nat) : forall (n : Z) (acc : string),
  0 <= n < 16 ^ (Z.of_nat more + 1) ->
  hex_value (hex_digits more n acc) 0 = hex_value acc n.
Proof.
  induction more as [ | more IH]; intros n acc Hn.
  - simpl. rewrite hex_digit_value_digit by (apply Z.mod_pos_bound; lia).
    rewrite Z.mod_small by (simpl in Hn; lia). reflexivity.
  - cbn [hex_digits].
    destruct (Z.eqb_spec (n / 16) 0) as [Hq | Hq].
    + cbn [hex_value]. rewrite hex_digit_value_digit by (apply Z.mod_pos_bound; lia).
      f_equal. pose proof (Z.div_mod n 16). lia.
    + rewrite IH.
      * cbn [hex_value]. rewrite hex_digit_value_digit by (apply Z.mod_pos_bound; lia).
        f_equal. pose proof (Z.div_mod n 16). lia.
      * split; [apply Z.div_pos; lia | ].
        apply Z.div_lt_upper_bound; [lia | ].
        replace (Z.of_nat (S more) + 1) with (Z.succ (Z.of_nat more + 1)) in Hn by lia.
        rewrite Z.pow_succ_r in Hn by lia. lia.
Qed.

(** Reading the digits printed by [%x] gives the number back. *)
Lemma hex_value_sprintf_x (n : Z) : hex_value (sprintf_x n) 0 = u32 n.
Proof.
  unfold sprintf_x. rewrite hex_value_digits; [reflexivity | ].
  pose proof (u32_range n). change (16 ^ (Z.of_nat 7 + 1)) with (2 ^ 32). lia.
Qed.

End Hex.

(** ** Sequential runs *)

Section Runs.

Lemma run_bind {A B : Type} (p : io A) (f : A -> io B) : forall m,
  run (bind p f) m =
  match run p m with
  | Some (a, m1, t1) =>
      match run (f a) m1 with
      | Some (b, m2, t2) => Some (b, m2, t1 ++ t2)
      | None => None
      end
  | None => None
  end.
Proof.
  induction p as [r | a k IH | v a k IH | k IH | k IH | ]; intros m; cbn [bind run].
  - destruct (run (f r) m) as [[[b m2] t2] | ]; reflexivity.
  - apply IH.
  - rewrite IH. destruct (run k (write32 m a v)) as [[[x m1] t1] | ]; [ | reflexivity].
    destruct (run (f x) m1) as [[[b m2] t2] | ]; reflexivity.
  - apply IH.
  - apply IH.
  - reflexivity.
Qed.

(** The final registers are the initial ones with the writes applied. *)
Lemma run_replay {R : Type} (p : io R) : forall m r m' t,
  run p m = Some (r, m', t) -> m' = replay t m.
Proof.
  induction p as [r0 | a k IH | v a k IH | k IH | k IH | ]; intros m r m' t H; cbn [run] in H.
  - inversion H; subst. reflexivity.
  - eapply IH, H.
  - destruct (run k (write32 m a v)) as [[[x m1] t1] | ] eqn:E; [ | discriminate].
    inversion H; subst. apply IH in E. exact E.
  - eapply IH, H.
  - eapply IH, H.
  - discriminate.
Qed.

Lemma run_writes_within {R : Type} (P : Z -> Prop) (p : io R) :
  writes_within P p ->
  forall m r m' t, run p m = Some (r, m', t) -> Forall (fun w => P w.1) t.
Proof.
  induction 1 as [r0 | a k _ IH | v a k Ha _ IH | k _ IH | k _ IH | ];
    intros m r m' t Hrun; cbn [run] in Hrun.
  - inversion Hrun; subst. constructor.
  - eapply IH, Hrun.
  - destruct (run k (write32 m a v)) as [[[x m1] t1] | ] eqn:E; [ | discriminate].
    inversion Hrun; subst. constructor; [exact Ha | eapply IH, E].
  - eapply IH, Hrun.
  - eapply IH, Hrun.
  - discriminate.
Qed.

Lemma replay_app (t1 t2 : list (Z * Z)) (m : gmap Z Z) :
  replay (t1 ++ t2) m = replay t2 (replay t1 m).
Proof. unfold replay. apply foldl_app. Qed.

Lemma read32_insert (m : gmap Z Z) (a b v : Z) :
  read32 (<[a := v]> m) b = if decide (a = b) then v else read32 m b.
Proof.
  unfold read32. destruct (decide (a = b)) as [-> | Hne].
  - rewrite lookup_insert_eq. reflexivity.
  - rewrite lookup_insert_ne by exact Hne. reflexivity.
Qed.

(** A register holds [v] after a list of writes when every write to it in
    the list writes [v], and either there is one or it held [v] before. *)
Lemma read32_replay (t : list (Z * Z)) : forall (m : gmap Z Z) (off v : Z),
  (forall v', (off, v') ∈ t -> v' = v) ->
  (off, v) ∈ t \/ read32 m off = v ->
  read32 (replay t m) off = v.
Proof.
  induction t as [ | [a x] t IH]; intros m off v Hall Hsome.
  - destruct Hsome as [Hin | Hm]; [ | exact Hm]. inversion Hin.
  - change (replay ((a, x) :: t) m) with (replay t (<[a := x]> m)).
    apply IH.
    + intros v' Hin. apply Hall. right. exact Hin.
    + rewrite read32_insert. destruct (decide (a = off)) as [-> | Hne].
      * right. apply Hall. left.
      * destruct Hsome as [Hin | Hm]; [ | right; exact Hm].
        apply elem_of_cons in Hin as [Heq | Hin]; [ | left; exact Hin].
        inversion Heq; subst. contradiction.
Qed.

Lemma read32_replay_other (t : list (Z * Z)) (m : gmap Z Z) (off : Z) :
  (forall v', (off, v') ∉ t) -> read32 (replay t m) off = read32 m off.
Proof.
  intros Hno. apply read32_replay; [ | right; reflexivity].
  intros v' Hin. exfalso. exact (Hno v' Hin).
Qed.

End Runs.

(** ** The page-table loop *)

Section PageTableLoop.

Variable phys_addrs : list Z.
Variable rest : io Z.

Lemma page_table_loop_step (todo : nat) (i a : Z) (m : gmap Z Z) :
  phys_addrs !! Z.to_nat i = Some a -> a <> 0 ->
  run (page_table_loop phys_addrs (S todo) i rest) m =
  match run (page_table_loop phys_addrs todo (i + 1) rest)
          (replay (entry_writes i a) m) with
  | Some (r, m', t) => Some (r, m', entry_writes i a ++ t)
  | None => None
  end.
Proof.
  intros Hl Ha. cbn [page_table_loop]. rewrite Hl.
  destruct (Z.eqb_spec a 0) as [ | _]; [contradiction | ].
  cbn [xocl_dr_reg_write32 bind run].
  change (replay (entry_writes i a) m) with
    (write32 (write32 m (Layout.lo (Layout.page_table_phys i)) (Z.land a 0xFFFFFFFF))
       (Layout.hi (Layout.page_table_phys i)) (Z.shiftr a 32)).
  destruct (run _ _) as [[[r m'] t] | ]; reflexivity.
Qed.

(** All [todo] entries are good: the loop writes them and falls through. *)
Lemma run_loop_ok (todo : nat) : forall (i : Z) (m : gmap Z Z),
  (forall j, i <= j < i + Z.of_nat todo -> entry_ok phys_addrs j) ->
  run (page_table_loop phys_addrs todo i rest) m =
  match run rest (replay (loop_writes phys_addrs todo i) m) with
  | Some (r, m', t) => Some (r, m', loop_writes phys_addrs todo i ++ t)
  | None => None
  end.
Proof.
  induction todo as [ | todo IH]; intros i m Hok.
  - cbn. destruct (run rest m) as [[[r m'] t] | ]; reflexivity.
  - destruct (Hok i ltac:(lia)) as (a & Hl & Ha).
    rewrite (page_table_loop_step todo i a m Hl Ha).
    rewrite IH by (intros j Hj; apply Hok; lia).
    cbn [loop_writes]. rewrite Hl. cbn [default].
    rewrite replay_app.
    destruct (run rest _) as [[[r m'] t] | ]; [ | reflexivity].
    rewrite <- app_assoc. reflexivity.
Qed.

(** The first bad entry is a zero at distance [d]: the [d] entries before
    it are written and the loop leaves with [-EINVAL]. *)
Lemma run_loop_zero (d : nat) : forall (todo : nat) (i : Z) (m : gmap Z Z),
  (d < todo)%nat ->
  (forall j, i <= j < i + Z.of_nat d -> entry_ok phys_addrs j) ->
  phys_addrs !! Z.to_nat (i + Z.of_nat d) = Some 0 ->
  run (page_table_loop phys_addrs todo i rest) m =
  Some (- EINVAL, replay (loop_writes phys_addrs d i) m, loop_writes phys_addrs d i).
Proof.
  induction d as [ | d IH]; intros todo i m Hlt Hok Hz;
    destruct todo as [ | todo]; try lia.
  - cbn [page_table_loop]. replace (i + Z.of_nat 0) with i in Hz by lia.
    rewrite Hz. reflexivity.
  - destruct (Hok i ltac:(lia)) as (a & Hl & Ha).
    rewrite (page_table_loop_step todo i a m Hl Ha).
    rewrite (IH todo (i + 1)); [ | lia | intros j Hj; apply Hok; lia | ].
    + cbn [loop_writes]. rewrite Hl. cbn [default]. rewrite replay_app. reflexivity.
    + replace (i + 1 + Z.of_nat d) with (i + Z.of_nat (S d)) by lia. exact Hz.
Qed.

(** The first bad entry is past the end of the array. *)
Lemma run_loop_fault (d : nat) : forall (todo : nat) (i : Z) (m : gmap Z Z),
  (d < todo)%nat ->
  (forall j, i <= j < i + Z.of_nat d -> entry_ok phys_addrs j) ->
  phys_addrs !! Z.to_nat (i + Z.of_nat d) = None ->
  run (page_table_loop phys_addrs todo i rest) m = None.
Proof.
  induction d as [ | d IH]; intros todo i m Hlt Hok Hz;
    destruct todo as [ | todo]; try lia.
  - cbn [page_table_loop]. replace (i + Z.of_nat 0) with i in Hz by lia.
    rewrite Hz. reflexivity.
  - destruct (Hok i ltac:(lia)) as (a & Hl & Ha).
    rewrite (page_table_loop_step todo i a m Hl Ha).
    rewrite (IH todo (i + 1)); [ reflexivity | lia | intros j Hj; apply Hok; lia | ].
    replace (i + 1 + Z.of_nat d) with (i + Z.of_nat (S d)) by lia. exact Hz.
Qed.

(** Either every entry is good, or there is a first bad one. *)
Lemma loop_cases (todo : nat) : forall (i : Z),
  (forall j, i <= j < i + Z.of_nat todo -> entry_ok phys_addrs j) \/
  exists d : nat, (d < todo)%nat /\
    (forall j, i <= j < i + Z.of_nat d -> entry_ok phys_addrs j) /\
    (phys_addrs !! Z.to_nat (i + Z.of_nat d) = Some 0 \/
     phys_addrs !! Z.to_nat (i + Z.of_nat d) = None).
Proof.
  induction todo as [ | todo IH]; intros i.
  - left. intros j Hj. lia.
  - destruct (phys_addrs !! Z.to_nat i) as [a | ] eqn:Hl.
    + destruct (Z.eq_dec a 0) as [-> | Ha].
      * right. exists 0%nat. replace (i + Z.of_nat 0) with i by lia.
        split; [lia | ]. split; [intros j Hj; lia | left; exact Hl].
      * destruct (IH (i + 1)) as [Hok | (d & Hd & Hok & Hbad)].
        -- left. intros j Hj. destruct (Z.eq_dec j i) as [-> | Hne].
           ++ exists a. split; assumption.
           ++ apply Hok. lia.
        -- right. exists (S d). split; [lia | ].
           replace (i + Z.of_nat (S d)) with (i + 1 + Z.of_nat d) by lia.
           split; [ | exact Hbad].
           intros j Hj. destruct (Z.eq_dec j i) as [-> | Hne].
           ++ exists a. split; assumption.
           ++ apply Hok. lia.
    + right. exists 0%nat. replace (i + Z.of_nat 0) with i by lia.
      split; [lia | ]. split; [intros j Hj; lia | right; exact Hl].
Qed.

Lemma elem_of_loop_writes (w : Z * Z) (todo : nat) : forall (i : Z),
  w ∈ loop_writes phys_addrs todo i <->
  exists j, i <= j < i + Z.of_nat todo /\
    w ∈ entry_writes j (default 0 (phys_addrs !! Z.to_nat j)).
Proof.
  induction todo as [ | todo IH]; intros i; cbn [loop_writes].
  - split; [intros H; inversion H | intros (j & Hj & _); lia].
  - rewrite elem_of_app, IH. split.
    + intros [H | (j & Hj & H)]; [exists i | exists j]; (split; [lia | exact H]).
    + intros (j & Hj & H). destruct (Z.eq_dec j i) as [-> | Hne].
      * left. exact H.
      * right. exists j. split; [lia | exact H].
Qed.

End PageTableLoop.

(** ** Outcomes of [addr_translator_set_page_table] *)

Section SetPageTable.

Variable phys_addrs : list Z.
Variables base_addr entry_sz num : Z.

(** The function is its two checks followed by the loop; what follows the
    loop makes the four commit writes and returns 0. *)
Lemma run_set_page_table :
  exists rest : io Z,
    (forall m, run rest m =
       Some (0, replay (commit_writes base_addr entry_sz num) m,
             commit_writes base_addr entry_sz num)) /\
    (forall m,
       run (addr_translator_set_page_table phys_addrs base_addr entry_sz num) m =
       if num >? max_num_apertures (read32 m Layout.cap) then Some (- EINVAL, m, [])
       else if negb (is_power_of_2 num) then Some (- EINVAL, m, [])
       else run (page_table_loop phys_addrs (Z.to_nat num) 0 rest) m).
Proof.
  exists (xocl_dr_reg_write32 (Z.land base_addr 0xFFFFFFFF) (Layout.lo Layout.base_addr) ;;
          xocl_dr_reg_write32 (Z.land (Z.shiftr base_addr 32) 0xFFFFFFFF)
            (Layout.hi Layout.base_addr) ;;
          xocl_dr_reg_write32 (u32 (ilog2 (u64 (num * entry_sz)))) Layout.addr_range ;;
          xocl_dr_reg_write32 num Layout.entry_num ;;
          Ret 0).
  split.
  - intros m. cbn [xocl_dr_reg_write32 bind run commit_writes].
    unfold write32. rewrite !u32_idem. reflexivity.
  - intros m. unfold addr_translator_set_page_table.
    cbn [mutex_lock xocl_dr_reg_read32 bind run]. rewrite run_bind.
    destruct (num >? _); [reflexivity | ].
    destruct (negb _); [reflexivity | ].
    destruct (run (page_table_loop _ _ _ _) m) as [[[r m'] t] | ]; [ | reflexivity].
    cbn [mutex_unlock bind run]. rewrite app_nil_r. reflexivity.
Qed.

Lemma set_page_table_rejects (m : gmap Z Z) :
  num > max_num_apertures (read32 m Layout.cap) \/ is_power_of_2 num = false ->
  run (addr_translator_set_page_table phys_addrs base_addr entry_sz num) m
  = Some (- EINVAL, m, []).
Proof.
  intros H. destruct run_set_page_table as (rest & _ & ->).
  destruct (Z.gtb_spec num (max_num_apertures (read32 m Layout.cap))); [reflexivity | ].
  destruct H as [H | ->]; [lia | reflexivity].
Qed.

Section Checked.

Variable m : gmap Z Z.
Hypothesis Hcap : num <= max_num_apertures (read32 m Layout.cap).
Hypothesis Hpow : is_power_of_2 num = true.

Lemma run_checked :
  exists rest : io Z,
    (forall m, run rest m =
       Some (0, replay (commit_writes base_addr entry_sz num) m,
             commit_writes base_addr entry_sz num)) /\
    run (addr_translator_set_page_table phys_addrs base_addr entry_sz num) m =
    run (page_table_loop phys_addrs (Z.to_nat num) 0 rest) m.
Proof.
  destruct run_set_page_table as (rest & Hrest & Hrun). exists rest.
  split; [exact Hrest | ]. rewrite Hrun.
  destruct (Z.gtb_spec num (max_num_apertures (read32 m Layout.cap))); [lia | ].
  rewrite Hpow. reflexivity.
Qed.

Lemma num_nonneg : 0 <= num.
Proof. pose proof (power_of_2_below_field num _ Hcap Hpow). lia. Qed.

(** Every entry good: all writes happen and the call returns 0. *)
Lemma set_page_table_programs :
  (forall j, 0 <= j < num -> entry_ok phys_addrs j) ->
  run (addr_translator_set_page_table phys_addrs base_addr entry_sz num) m
  = Some (0,
          replay (loop_writes phys_addrs (Z.to_nat num) 0
                    ++ commit_writes base_addr entry_sz num) m,
          loop_writes phys_addrs (Z.to_nat num) 0
            ++ commit_writes base_addr entry_sz num).
Proof.
  intros Hok. destruct run_checked as (rest & Hrest & ->).
  pose proof num_nonneg.
  rewrite run_loop_ok by (intros j Hj; apply Hok; lia).
  rewrite Hrest, replay_app. reflexivity.
Qed.

(** A zero at index [k] after good entries: [-EINVAL] with the first
    [k] entries written. *)
Lemma set_page_table_zero_entry (k : Z) :
  0 <= k < num ->
  (forall j, 0 <= j < k -> entry_ok phys_addrs j) ->
  phys_addrs !! Z.to_nat k = Some 0 ->
  run (addr_translator_set_page_table phys_addrs base_addr entry_sz num) m
  = Some (- EINVAL,
          replay (loop_writes phys_addrs (Z.to_nat k) 0) m,
          loop_writes phys_addrs (Z.to_nat k) 0).
Proof.
  intros Hk Hok Hz. destruct run_checked as (rest & _ & ->).
  apply run_loop_zero.
  - lia.
  - intros j Hj. apply Hok. lia.
  - replace (0 + Z.of_nat (Z.to_nat k)) with k by lia. exact Hz.
Qed.

(** A call that returns 0 found every entry good and made all writes. *)
Lemma set_page_table_returns_0 (m' : gmap Z Z) (t : list (Z * Z)) :
  run (addr_translator_set_page_table phys_addrs base_addr entry_sz num) m
  = Some (0, m', t) ->
  forall j, 0 <= j < num -> entry_ok phys_addrs j.
Proof.
  intros Hrun.
  destruct (loop_cases phys_addrs (Z.to_nat num) 0) as [Hok | (d & Hd & Hok & Hbad)].
  - intros j Hj. apply Hok. lia.
  - exfalso. destruct run_checked as (rest & _ & Hrw). rewrite Hrw in Hrun.
    destruct Hbad as [Hz | Hn].
    + rewrite (run_loop_zero phys_addrs rest d _ 0 m Hd Hok Hz) in Hrun.
      discriminate.
    + rewrite (run_loop_fault phys_addrs rest d _ 0 m Hd Hok Hn) in Hrun.
      discriminate.
Qed.

End Checked.

(** Returning 0 means both checks passed. *)
Lemma set_page_table_returns_0_checks (m m' : gmap Z Z) (t : list (Z * Z)) :
  run (addr_translator_set_page_table phys_addrs base_addr entry_sz num) m
  = Some (0, m', t) ->
  num <= max_num_apertures (read32 m Layout.cap) /\ is_power_of_2 num = true.
Proof.
  intros Hrun.
  destruct (Z.gtb_spec num (max_num_apertures (read32 m Layout.cap))) as [Hgt | Hle].
  - rewrite set_page_table_rejects in Hrun by (left; lia). discriminate.
  - destruct (is_power_of_2 num) eqn:Hp; [split; [lia | reflexivity] | ].
    rewrite set_page_table_rejects in Hrun by (right; exact Hp). discriminate.
Qed.

End SetPageTable.

(** ** Offsets of the registers *)

Section Offsets.

Lemma offsets :
  Layout.cap = 0x4 /\ Layout.entry_num = 0x8 /\
  Layout.lo Layout.base_addr = 0x10 /\ Layout.hi Layout.base_addr = 0x14 /\
  Layout.addr_range = 0x18 /\ Layout.sizeof_trans_regs = 0x1000.
Proof. repeat split; reflexivity. Qed.

Lemma page_table_offsets (i : Z) :
  Layout.lo (Layout.page_table_phys i) = 0x800 + 8 * i /\
  Layout.hi (Layout.page_table_phys i) = 0x800 + 8 * i + 4.
Proof.
  unfold Layout.lo, Layout.hi, Layout.page_table_phys, Layout.page_table_phys_0,
    Layout.padding, Layout.addr_range, Layout.base_addr, Layout.unused,
    Layout.entry_num, Layout.cap, Layout.ver, Layout.sizeof_trans_addr,
    Layout.sizeof_u32.
  lia.
Qed.

Lemma elem_of_entry_writes (off v i a : Z) :
  (off, v) ∈ entry_writes i a <->
  (off = 0x800 + 8 * i /\ v = u32 (Z.land a 0xFFFFFFFF)) \/
  (off = 0x800 + 8 * i + 4 /\ v = u32 (Z.shiftr a 32)).
Proof.
  unfold entry_writes. destruct (page_table_offsets i) as [-> ->].
  rewrite !elem_of_cons, elem_of_nil. split.
  - intros [H | [H | []]]; inversion H; subst; auto.
  - intros [[-> ->] | [-> ->]]; auto.
Qed.

Lemma elem_of_commit_writes (off v base_addr entry_sz num : Z) :
  (off, v) ∈ commit_writes base_addr entry_sz num <->
  (off = 0x10 /\ v = u32 (Z.land base_addr 0xFFFFFFFF)) \/
  (off = 0x14 /\ v = u32 (Z.land (Z.shiftr base_addr 32) 0xFFFFFFFF)) \/
  (off = 0x18 /\ v = u32 (ilog2 (u64 (num * entry_sz)))) \/
  (off = 0x8 /\ v = u32 num).
Proof.
  unfold commit_writes. rewrite !elem_of_cons, elem_of_nil. split.
  - intros [H | [H | [H | [H | []]]]]; inversion H; subst; auto.
  - intros [[-> ->] | [[-> ->] | [[-> ->] | [-> ->]]]]; auto.
Qed.

End Offsets.

(** ** Capacity query *)

(** C6: for every value of the capability register (offset 0x4),
    [addr_translator_get_entries_num] returns [(cap >> 16) & 0x1FF], which
    is the number made of bits 16 to 24 of the register. *)
Theorem C6_query_entry_capacity_field (m : gmap Z Z) :
  exists v m' t,
    run addr_translator_get_entries_num m = Some (v, m', t) /\
    v = Z.land (Z.shiftr (read32 m 0x4) 16) 0x1FF /\
    v = (read32 m 0x4 / 2 ^ 16) mod 2 ^ 9 /\
    forall i : nat,
      Z.testbit v (Z.of_nat i)
      = (Nat.ltb i 9 && Z.testbit (read32 m 0x4) (16 + Z.of_nat i))%bool.
Proof.
  exists (max_num_apertures (read32 m Layout.cap)), m, [].
  split; [reflexivity | ]. split; [reflexivity | ].
  split; [apply max_num_apertures_mod | ].
  intros i. unfold max_num_apertures. change Layout.cap with 4.
  rewrite Z.land_spec, Z.shiftr_spec by lia.
  rewrite (Z.add_comm 16), andb_comm. f_equal.
  change 511 with (Z.ones 9).
  destruct (Nat.ltb_spec i 9).
  - apply Z.ones_spec_low. lia.
  - apply Z.ones_spec_high. lia.
Qed.

(** C10: [addr_translator_get_entries_num] writes no register: its command
    tree has no write, and after it every register holds the value it held
    before. *)
Theorem C10_query_entry_capacity_no_write (m : gmap Z Z) :
  writes_within (fun _ => False) addr_translator_get_entries_num /\
  exists v, run addr_translator_get_entries_num m = Some (v, m, []).
Proof.
  split.
  - unfold addr_translator_get_entries_num.
    cbn [mutex_lock mutex_unlock xocl_dr_reg_read32 bind].
    repeat constructor.
  - eexists. reflexivity.
Qed.

(** ** Validation *)

(** C2: [addr_translator_set_page_table] returns 0 only if [num] is a power
    of two and at most the capacity read from the capability register; when
    one of the two fails it returns [-EINVAL], makes no register write and
    leaves the registers as they were. *)
Theorem C2_configure_validation
    (m : gmap Z Z) (phys_addrs : list Z) (base_addr entry_sz num : Z) :
  (forall m' t,
     run (addr_translator_set_page_table phys_addrs base_addr entry_sz num) m
     = Some (0, m', t) ->
     (exists k, 0 <= k /\ num = 2 ^ k) /\ num <= max_num_apertures (read32 m 0x4)) /\
  (~ (exists k, 0 <= k /\ num = 2 ^ k) \/ max_num_apertures (read32 m 0x4) < num ->
   run (addr_translator_set_page_table phys_addrs base_addr entry_sz num) m
   = Some (- EINVAL, m, [])).
Proof.
  split.
  - intros m' t Hrun.
    apply set_page_table_returns_0_checks in Hrun as [Hcap Hpow].
    split; [apply is_power_of_2_spec; exact Hpow | exact Hcap].
  - intros Hbad. apply set_page_table_rejects.
    destruct Hbad as [Hnp | Hgt]; [right | left; exact (Z.lt_gt _ _ Hgt)].
    destruct (is_power_of_2 num) eqn:Hp; [ | reflexivity].
    exfalso. apply Hnp, is_power_of_2_spec, Hp.
Qed.

Lemma C2_configure_validation_witness :
  run (addr_translator_set_page_table [0x1000; 0x2000] 0 0x1000 2) regs_cap256
  = Some (0, replay [(0x800, 0x1000); (0x804, 0); (0x808, 0x2000); (0x80c, 0);
                     (0x10, 0); (0x14, 0); (0x18, 13); (0x8, 2)] regs_cap256,
          [(0x800, 0x1000); (0x804, 0); (0x808, 0x2000); (0x80c, 0);
           (0x10, 0); (0x14, 0); (0x18, 13); (0x8, 2)]) /\
  ((exists k, 0 <= k /\ 2 = 2 ^ k) /\ 2 <= max_num_apertures (read32 regs_cap256 0x4)) /\
  run (addr_translator_set_page_table [0x1000] 0 0x1000 512) regs_cap256
  = Some (- EINVAL, regs_cap256, []).
Proof.
  assert (H : run (addr_translator_set_page_table [0x1000; 0x2000] 0 0x1000 2) regs_cap256
    = Some (0, replay [(0x800, 0x1000); (0x804, 0); (0x808, 0x2000); (0x80c, 0);
                       (0x10, 0); (0x14, 0); (0x18, 13); (0x8, 2)] regs_cap256,
            [(0x800, 0x1000); (0x804, 0); (0x808, 0x2000); (0x80c, 0);
             (0x10, 0); (0x14, 0); (0x18, 13); (0x8, 2)]))
    by (vm_compute; reflexivity).
  split; [exact H | ]. split.
  - exact (proj1 (C2_configure_validation regs_cap256 [0x1000; 0x2000] 0 0x1000 2) _ _ H).
  - apply (proj2 (C2_configure_validation regs_cap256 [0x1000] 0 0x1000 512)).
    right. vm_compute. reflexivity.
Defined.

(** ** Bounds of the page-table writes *)

Lemma writes_within_bind {A B : Type} (P : Z -> Prop) (p : io A) (f : A -> io B) :
  writes_within P p -> (forall a, writes_within P (f a)) -> writes_within P (bind p f).
Proof.
  intros Hp Hf. induction Hp; cbn [bind]; try constructor; auto.
Qed.

Lemma writes_within_loop (P : Z -> Prop) (phys_addrs : list Z) (rest : io Z) (bound : Z) :
  (forall i, 0 <= i < bound ->
     P (Layout.lo (Layout.page_table_phys i)) /\ P (Layout.hi (Layout.page_table_phys i))) ->
  writes_within P rest ->
  forall (todo : nat) (i : Z), 0 <= i -> i + Z.of_nat todo <= bound ->
  writes_within P (page_table_loop phys_addrs todo i rest).
Proof.
  intros HP Hrest. induction todo as [ | todo IH]; intros i Hi Hb; cbn [page_table_loop].
  - exact Hrest.
  - destruct (phys_addrs !! Z.to_nat i) as [a | ]; [ | constructor].
    destruct (a =? 0); [constructor | ].
    cbn [xocl_dr_reg_write32 bind].
    destruct (HP i ltac:(lia)) as [Hlo Hhi].
    constructor; [exact Hlo | ]. constructor; [exact Hhi | ].
    apply IH; lia.
Qed.

(** C9: a [num] that passes the two checks is at most 256, and every write
    of [addr_translator_set_page_table], on every path, goes to one of the
    four control registers or to a half of [page_table_phys[i]] with
    [0 <= i <= 255]. *)
Theorem C9_page_table_index_in_bounds
    (phys_addrs : list Z) (base_addr entry_sz num : Z) :
  (forall cap, num <= max_num_apertures cap -> is_power_of_2 num = true -> num <= 256) /\
  writes_within (fun a => control_reg a \/ in_page_table a)
    (addr_translator_set_page_table phys_addrs base_addr entry_sz num).
Proof.
  split.
  - intros cap Hle Hp. pose proof (power_of_2_below_field num cap Hle Hp). lia.
  - unfold addr_translator_set_page_table.
    cbn [mutex_lock xocl_dr_reg_read32 bind].
    constructor. constructor. intros cap.
    assert (Hdone : forall ret : Z,
      writes_within (fun a => control_reg a \/ in_page_table a)
        (mutex_unlock ;; Ret ret)).
    { intros ret. cbn [mutex_unlock bind]. repeat constructor. }
    destruct (Z.gtb_spec num (max_num_apertures cap)) as [ | Hle];
      [apply writes_within_bind; [constructor | exact Hdone] | ].
    destruct (is_power_of_2 num) eqn:Hp; cbn [negb];
      [ | apply writes_within_bind; [constructor | exact Hdone]].
    pose proof (power_of_2_below_field num cap Hle Hp) as Hnum.
    apply writes_within_bind; [ | exact Hdone].
    apply (writes_within_loop _ _ _ 256).
    + intros i Hi. destruct (page_table_offsets i) as [-> ->].
      split; right; exists i; (split; [lia | auto]).
    + cbn [xocl_dr_reg_write32 bind].
      destruct offsets as (_ & -> & -> & -> & -> & _).
      repeat (apply ww_write; [left; unfold control_reg; lia | ]). apply ww_ret.
    + lia.
    + lia.
Qed.

Lemma C9_page_table_index_in_bounds_witness :
  256 <= 256 /\
  writes_within (fun a => control_reg a \/ in_page_table a)
    (addr_translator_set_page_table [0x1000] 0 0x1000 256).
Proof.
  split.
  - apply (proj1 (C9_page_table_index_in_bounds [0x1000] 0 0x1000 256) 0x01000000);
      vm_compute; [discriminate | reflexivity].
  - apply (proj2 (C9_page_table_index_in_bounds [0x1000] 0 0x1000 256)).
Defined.

(** ** Registers after the writes *)

Section ReadBack.

Variable phys_addrs : list Z.

Lemma loop_writes_offset (off v : Z) (todo : nat) (i : Z) :
  0 <= i -> (off, v) ∈ loop_writes phys_addrs todo i -> 0x800 <= off.
Proof.
  intros Hi Hin. apply elem_of_loop_writes in Hin as (j & Hj & Hin).
  apply elem_of_entry_writes in Hin as [[-> _] | [-> _]]; lia.
Qed.

(** After the loop's writes, and later writes below the page table, entry
    [i] reads back as the address stored in it. *)
Lemma read_entry_after_loop (todo : nat) (extra : list (Z * Z)) (m : gmap Z Z) (i a : Z) :
  (forall off v, (off, v) ∈ extra -> off < 0x800) ->
  0 <= i < Z.of_nat todo ->
  phys_addrs !! Z.to_nat i = Some a ->
  0 <= a < 2 ^ 64 ->
  read_trans_addr (replay (loop_writes phys_addrs todo 0 ++ extra) m) (0x800 + 8 * i) = a.
Proof.
  intros Hextra Hi Hl Ha. unfold read_trans_addr.
  rewrite (read32_replay _ m (0x800 + 8 * i) (u32 (Z.land a 0xFFFFFFFF))).
  rewrite (read32_replay _ m (0x800 + 8 * i + 4) (u32 (Z.shiftr a 32))).
  - apply halves_join, Ha.
  - intros v' Hin. apply elem_of_app in Hin as [Hin | Hin].
    + apply elem_of_loop_writes in Hin as (j & Hj & Hin).
      apply elem_of_entry_writes in Hin as [[Hoff _] | [Hoff ->]]; [lia | ].
      replace j with i by lia. rewrite Hl. reflexivity.
    + apply Hextra in Hin. lia.
  - left. apply elem_of_app. left. apply elem_of_loop_writes.
    exists i. split; [lia | ]. rewrite Hl. apply elem_of_entry_writes. right. auto.
  - intros v' Hin. apply elem_of_app in Hin as [Hin | Hin].
    + apply elem_of_loop_writes in Hin as (j & Hj & Hin).
      apply elem_of_entry_writes in Hin as [[Hoff ->] | [Hoff _]]; [ | lia].
      replace j with i by lia. rewrite Hl. reflexivity.
    + apply Hextra in Hin. lia.
  - left. apply elem_of_app. left. apply elem_of_loop_writes.
    exists i. split; [lia | ]. rewrite Hl. apply elem_of_entry_writes. left. auto.
Qed.

(** The loop's writes leave the registers below the page table alone. *)
Lemma read_below_after_loop (todo : nat) (m : gmap Z Z) (off : Z) :
  off < 0x800 ->
  (forall v, (off, v) ∉ loop_writes phys_addrs todo 0) /\
  read32 (replay (loop_writes phys_addrs todo 0) m) off = read32 m off.
Proof.
  intros Hoff.
  assert (Hno : forall v, (off, v) ∉ loop_writes phys_addrs todo 0).
  { intros v Hin. apply loop_writes_offset in Hin; lia. }
  split; [exact Hno | ]. apply read32_replay_other, Hno.
Qed.

Lemma commit_writes_offset (off v base_addr entry_sz num : Z) :
  (off, v) ∈ commit_writes base_addr entry_sz num -> off < 0x800.
Proof.
  intros Hin.
  apply elem_of_commit_writes in Hin as [[-> _] | [[-> _] | [[-> _] | [-> _]]]]; lia.
Qed.

End ReadBack.

(** ** Programming the table *)

(** C3: when [num] is within the capacity and a power of two and the first
    [num] addresses are non-zero 64-bit values, the call returns 0 and, for
    every [i] below [num], the low half at offset [0x800+8i] and the high
    half at [0x800+8i+4] together are [phys_addrs[i]]. *)
Theorem C3_page_table_readback
    (m : gmap Z Z) (phys_addrs : list Z) (base_addr entry_sz num : Z) :
  num <= max_num_apertures (read32 m 0x4) ->
  (exists k, 0 <= k /\ num = 2 ^ k) ->
  (forall i, 0 <= i < num ->
     exists a, phys_addrs !! Z.to_nat i = Some a /\ a <> 0 /\ 0 <= a < 2 ^ 64) ->
  exists m' t,
    run (addr_translator_set_page_table phys_addrs base_addr entry_sz num) m
    = Some (0, m', t) /\
    forall i a, 0 <= i < num -> phys_addrs !! Z.to_nat i = Some a ->
      Z.lor (read32 m' (0x800 + 8 * i)) (Z.shiftl (read32 m' (0x800 + 8 * i + 4)) 32) = a.
Proof.
  intros Hcap Hpow Hok. apply is_power_of_2_spec in Hpow.
  eexists _, _. split.
  - apply set_page_table_programs; [exact Hcap | exact Hpow | ].
    intros j Hj. destruct (Hok j Hj) as (a & Hl & Ha & _). exists a. auto.
  - intros i a Hi Hl. destruct (Hok i Hi) as (a' & Hl' & _ & Ha).
    assert (a' = a) as -> by congruence.
    apply (read_entry_after_loop phys_addrs (Z.to_nat num) _ m i a); [ | lia | exact Hl | exact Ha].
    intros off v. apply commit_writes_offset.
Qed.

Lemma C3_page_table_readback_witness :
  exists m' t,
    run (addr_translator_set_page_table [0x1000; 0xFFFFFFFFFFFFF000] 0x100000000 0x1000 2)
      regs_cap256 = Some (0, m', t) /\
    forall i a, 0 <= i < 2 -> [0x1000; 0xFFFFFFFFFFFFF000] !! Z.to_nat i = Some a ->
      Z.lor (read32 m' (0x800 + 8 * i)) (Z.shiftl (read32 m' (0x800 + 8 * i + 4)) 32) = a.
Proof.
  apply (C3_page_table_readback regs_cap256 [0x1000; 0xFFFFFFFFFFFFF000] 0x100000000 0x1000 2).
  - vm_compute. discriminate.
  - exists 1. split; [lia | reflexivity].
  - intros i Hi. assert (H : i = 0 \/ i = 1) by lia.
    destruct H as [-> | ->]; eexists; (split; [reflexivity | split; lia]).
Defined.

(** C4: when the two checks pass and [phys_addrs[k]] is the first zero
    address, with [k < num], the call returns [-EINVAL], the page-table
    registers of the entries before [k] hold their new addresses, and the
    base-address, range and entry-count registers are neither written nor
    changed. *)
Theorem C4_zero_entry_partial_write
    (m : gmap Z Z) (phys_addrs : list Z) (base_addr entry_sz num k : Z) :
  num <= max_num_apertures (read32 m 0x4) ->
  (exists e, 0 <= e /\ num = 2 ^ e) ->
  0 <= k < num ->
  phys_addrs !! Z.to_nat k = Some 0 ->
  (forall j, 0 <= j < k ->
     exists a, phys_addrs !! Z.to_nat j = Some a /\ a <> 0 /\ 0 <= a < 2 ^ 64) ->
  exists m' t,
    run (addr_translator_set_page_table phys_addrs base_addr entry_sz num) m
    = Some (- EINVAL, m', t) /\
    (forall j a, 0 <= j < k -> phys_addrs !! Z.to_nat j = Some a ->
       (0x800 + 8 * j, a mod 2 ^ 32) ∈ t /\ (0x800 + 8 * j + 4, a / 2 ^ 32) ∈ t /\
       Z.lor (read32 m' (0x800 + 8 * j)) (Z.shiftl (read32 m' (0x800 + 8 * j + 4)) 32) = a) /\
    (forall off, control_reg off ->
       (forall v, (off, v) ∉ t) /\ read32 m' off = read32 m off).
Proof.
  intros Hcap Hpow Hk Hz Hok. apply is_power_of_2_spec in Hpow.
  eexists _, _. split; [ | split].
  - apply set_page_table_zero_entry; [exact Hcap | exact Hpow | exact Hk | | exact Hz].
    intros j Hj. destruct (Hok j Hj) as (a & Hl & Ha & _). exists a. auto.
  - intros j a Hj Hl. destruct (Hok j Hj) as (a' & Hl' & _ & Ha).
    assert (a' = a) as -> by congruence.
    assert (Hlow : u32 (Z.land a 0xFFFFFFFF) = a mod 2 ^ 32).
    { change 0xFFFFFFFF with (Z.ones 32). rewrite Z.land_ones by lia.
      apply u32_small, Z.mod_pos_bound. lia. }
    assert (Hhigh : u32 (Z.shiftr a 32) = a / 2 ^ 32).
    { rewrite Z.shiftr_div_pow2 by lia. apply u32_small. split.
      - apply Z.div_pos; lia.
      - apply Z.div_lt_upper_bound; lia. }
    split; [ | split].
    + apply elem_of_loop_writes. exists j. split; [lia | ].
      rewrite Hl. apply elem_of_entry_writes. left. auto.
    + apply elem_of_loop_writes. exists j. split; [lia | ].
      rewrite Hl. apply elem_of_entry_writes. right. auto.
    + rewrite <- (app_nil_r (loop_writes phys_addrs (Z.to_nat k) 0)).
      apply (read_entry_after_loop phys_addrs (Z.to_nat k) [] m j a);
        [ | lia | exact Hl | exact Ha].
      intros off v Hin. inversion Hin.
  - intros off Hoff. apply read_below_after_loop.
    unfold control_reg in Hoff. lia.
Qed.

Lemma C4_zero_entry_partial_write_witness :
  exists m' t,
    run (addr_translator_set_page_table [0x1000; 0x2000; 0x0; 0x4000] 0x100000000 0x1000 4)
      regs_cap256 = Some (- EINVAL, m', t) /\
    (forall j a, 0 <= j < 2 -> [0x1000; 0x2000; 0x0; 0x4000] !! Z.to_nat j = Some a ->
       (0x800 + 8 * j, a mod 2 ^ 32) ∈ t /\ (0x800 + 8 * j + 4, a / 2 ^ 32) ∈ t /\
       Z.lor (read32 m' (0x800 + 8 * j)) (Z.shiftl (read32 m' (0x800 + 8 * j + 4)) 32) = a) /\
    (forall off, control_reg off ->
       (forall v, (off, v) ∉ t) /\ read32 m' off = read32 regs_cap256 off).
Proof.
  apply (C4_zero_entry_partial_write regs_cap256 [0x1000; 0x2000; 0x0; 0x4000]
           0x100000000 0x1000 4 2).
  - vm_compute. discriminate.
  - exists 2. split; [lia | reflexivity].
  - lia.
  - reflexivity.
  - intros j Hj. assert (H : j = 0 \/ j = 1) by lia.
    destruct H as [-> | ->]; eexists; (split; [reflexivity | split; lia]).
Defined.

(** A call that returns 0 made exactly the loop's writes and then the commit
    writes. *)
Lemma set_page_table_returns_0_writes
    (m m' : gmap Z Z) (t : list (Z * Z)) (phys_addrs : list Z) (base_addr entry_sz num : Z) :
  run (addr_translator_set_page_table phys_addrs base_addr entry_sz num) m
  = Some (0, m', t) ->
  1 <= num <= 256 /\
  t = loop_writes phys_addrs (Z.to_nat num) 0 ++ commit_writes base_addr entry_sz num /\
  m' = replay t m.
Proof.
  intros Hrun.
  destruct (set_page_table_returns_0_checks _ _ _ _ _ _ _ Hrun) as [Hcap Hpow].
  pose proof (set_page_table_returns_0 _ _ _ _ _ Hcap Hpow _ _ Hrun) as Hok.
  rewrite (set_page_table_programs _ base_addr entry_sz _ _ Hcap Hpow Hok) in Hrun.
  inversion Hrun; subst.
  split; [exact (power_of_2_below_field _ _ Hcap Hpow) | ]. split; reflexivity.
Qed.

(** C5 (amended): after a call that returns 0, if the product
    [num * entry_sz] taken modulo 2^64 is not zero, the range register at
    offset 0x18 holds the integer part of its base-2 logarithm. *)
Theorem C5_range_register
    (m m' : gmap Z Z) (t : list (Z * Z)) (phys_addrs : list Z) (base_addr entry_sz num : Z) :
  run (addr_translator_set_page_table phys_addrs base_addr entry_sz num) m
  = Some (0, m', t) ->
  0 < (num * entry_sz) mod 2 ^ 64 ->
  read32 m' 0x18 = Z.log2 ((num * entry_sz) mod 2 ^ 64) /\
  floor_log2 ((num * entry_sz) mod 2 ^ 64) (read32 m' 0x18).
Proof.
  intros Hrun Hpos.
  destruct (set_page_table_returns_0_writes _ _ _ _ _ _ _ Hrun) as (Hnum & -> & ->).
  assert (Hreg : read32 (replay (loop_writes phys_addrs (Z.to_nat num) 0
                                   ++ commit_writes base_addr entry_sz num) m) 0x18
                 = ilog2 (u64 (num * entry_sz))).
  { rewrite <- (u32_small (ilog2 (u64 (num * entry_sz)))).
    - apply read32_replay.
      + intros v' Hin. apply elem_of_app in Hin as [Hin | Hin].
        * apply loop_writes_offset in Hin; lia.
        * apply elem_of_commit_writes in Hin as [[? _] | [[? _] | [[_ ->] | [? _]]]];
            (reflexivity || lia).
      + left. apply elem_of_app. right. apply elem_of_commit_writes. auto.
    - pose proof (ilog2_u64_range (u64 (num * entry_sz))) as Hr.
      pose proof (u64_range (num * entry_sz)). unfold u64 in *. lia. }
  rewrite Hreg. apply ilog2_floor. exact Hpos.
Qed.

Lemma C5_range_register_witness :
  exists m' t,
    run (addr_translator_set_page_table [0x1000; 0x2000; 0x3000; 0x4000]
           0x100000000 0x1000 4) regs_cap256 = Some (0, m', t) /\
    read32 m' 0x18 = 14 /\ floor_log2 0x4000 (read32 m' 0x18).
Proof.
  eexists _, _. split; [vm_compute; reflexivity | ].
  refine (C5_range_register regs_cap256 _ _ [0x1000; 0x2000; 0x3000; 0x4000]
            0x100000000 0x1000 4 _ _).
  - vm_compute. reflexivity.
  - reflexivity.
Defined.

(** C5 as stated fails when the product is zero: with [entry_sz = 0] the
    call returns 0 and the range register receives [ilog2(0) = -1] as a
    32-bit value, which is the logarithm of nothing. *)
Lemma C5_counterexample :
  exists m' t,
    run (addr_translator_set_page_table [0x1000] 0x100000000 0 1) regs_cap256
    = Some (0, m', t) /\
    read32 m' 0x18 = 0xFFFFFFFF /\
    read32 m' 0x18 <> Z.log2 ((1 * 0) mod 2 ^ 64) /\
    ~ floor_log2 ((1 * 0) mod 2 ^ 64) (read32 m' 0x18).
Proof.
  eexists _, _. split; [vm_compute; reflexivity | ].
  split; [reflexivity | ]. split; [discriminate | ].
  intros [Hk [Hle _]]. change ((1 * 0) mod 2 ^ 64) with 0 in Hle.
  pose proof (Z.pow_pos_nonneg 2 _ ltac:(lia) Hk). lia.
Qed.

(** C7: in a call that returns 0 the write of [num] to the entry-count
    register at offset 0x8 is the last one; before it come the writes of
    every page-table entry, of the two halves of the base address and of the
    range, and no other write to offset 0x8. *)
Theorem C7_entry_count_written_last
    (m m' : gmap Z Z) (t : list (Z * Z)) (phys_addrs : list Z) (base_addr entry_sz num : Z) :
  run (addr_translator_set_page_table phys_addrs base_addr entry_sz num) m
  = Some (0, m', t) ->
  exists before lo hi range_in_log,
    t = before ++ [(0x8, num)] /\
    before = loop_writes phys_addrs (Z.to_nat num) 0
               ++ [(0x10, lo); (0x14, hi); (0x18, range_in_log)] /\
    (forall v, (0x8, v) ∉ before) /\
    (forall i : nat, (i < Z.to_nat num)%nat ->
       exists v1 v2, (0x800 + 8 * Z.of_nat i, v1) ∈ before /\
                     (0x800 + 8 * Z.of_nat i + 4, v2) ∈ before).
Proof.
  intros Hrun.
  destruct (set_page_table_returns_0_writes _ _ _ _ _ _ _ Hrun) as (Hnum & -> & _).
  eexists _, _, _, _. split; [ | split; [reflexivity | split]].
  - unfold commit_writes. destruct offsets as (_ & -> & -> & -> & -> & _).
    rewrite (u32_small num) by lia. rewrite <- app_assoc. reflexivity.
  - intros v Hin. apply elem_of_app in Hin as [Hin | Hin].
    + apply loop_writes_offset in Hin; lia.
    + rewrite !elem_of_cons, elem_of_nil in Hin.
      destruct Hin as [H | [H | [H | []]]]; inversion H.
  - intros i Hi. eexists _, _.
    split; apply elem_of_app; left; apply elem_of_loop_writes;
      exists (Z.of_nat i); (split; [lia | ]); apply elem_of_entry_writes; [left | right];
      split; reflexivity.
Qed.

Lemma C7_entry_count_written_last_witness :
  exists t, last t = Some (0x8, 2) /\
    exists before lo hi range_in_log,
      t = before ++ [(0x8, 2)] /\
      before = loop_writes [0x1000; 0x2000] (Z.to_nat 2) 0
                 ++ [(0x10, lo); (0x14, hi); (0x18, range_in_log)] /\
      (forall v, (0x8, v) ∉ before) /\
      (forall i : nat, (i < Z.to_nat 2)%nat ->
         exists v1 v2, (0x800 + 8 * Z.of_nat i, v1) ∈ before /\
                       (0x800 + 8 * Z.of_nat i + 4, v2) ∈ before).
Proof.
  eexists. split; [ | refine (C7_entry_count_written_last regs_cap256 _ _
                                [0x1000; 0x2000] 0 0x1000 2 _); vm_compute; reflexivity].
  reflexivity.
Defined.

(** ** The status attribute *)



(** ** Concurrent calls *)

Section Pool.

Variable ts0 : list (io Z).
Variable m0 : gmap Z Z.
Hypothesis Hcritical : forall i p, ts0 !! i = Some p -> critical p.

Lemma serial_snoc (m : gmap Z Z) done m1 t1 i p r m2 t2 :
  serial ts0 m done m1 t1 ->
  ts0 !! i = Some p ->
  run p m1 = Some (r, m2, t2) ->
  serial ts0 m (done ++ [(i, r)]) m2 (t1 ++ map (pair i) t2).
Proof.
  intros Hs Hl. revert m2 t2.
  induction Hs as [m | m j q r' m1' t1' done m2' t2' Hj Hq Hs IH]; intros m2 t2 Hr.
  - cbn. rewrite <- (app_nil_r (map (pair i) t2)).
    econstructor; [exact Hl | exact Hr | constructor].
  - cbn. rewrite <- app_assoc.
    econstructor; [exact Hj | exact Hq | apply IH; exact Hr].
Qed.

Lemma pool_inv_init : pool_inv ts0 m0 (idle m0) ts0.
Proof.
  apply (inv_free ts0 m0 []).
  - constructor.
  - constructor.
  - intros i r Hin. inversion Hin.
  - reflexivity.
Qed.

(** A thread that has returned, or waits for a mutex that is taken, cannot
    move. *)
Lemma finished_or_waiting_stuck (tid : nat) (done : list (nat * Z)) (ts : list (io Z))
    (s s' : instance) (p p' : io Z) :
  (forall i r, (i, r) ∈ done -> ts !! i = Some (Ret r)) ->
  (tid ∉ done.*1 -> ts !! tid = ts0 !! tid) ->
  ts !! tid = Some p ->
  thread_step tid s p s' p' ->
  (tid ∉ done.*1) /\ owner s = None /\ p = MutexLock p' /\ guarded p' /\
  ts0 !! tid = Some (MutexLock p') /\ s' = Instance (regs s) (log s) (Some tid).
Proof.
  intros Hdone Hrest Hp Hthr.
  destruct (decide (tid ∈ done.*1)) as [Hin | Hnin].
  - apply list_elem_of_fmap in Hin as ([i r] & -> & Hin). cbn [fst] in Hp.
    rewrite (Hdone _ _ Hin) in Hp. inversion Hp; subst. inversion Hthr.
  - rewrite (Hrest Hnin) in Hp. destruct (Hcritical _ _ Hp) as (b & -> & Hg).
    inversion Hthr; subst. auto 10.
Qed.

Lemma pool_inv_step (s s' : instance) (ts ts' : list (io Z)) :
  pool_inv ts0 m0 s ts -> pool_step (s, ts) (s', ts') -> pool_inv ts0 m0 s' ts'.
Proof.
  intros Hinv Hstep.
  inversion Hstep as [tid s1 ts1 p s1' p' Hp Hthr]; subst s1 ts1 s1' ts'.
  pose proof (lookup_lt_Some _ _ _ Hp) as Hlen.
  destruct Hinv as [done m_d t_d ts Hser Hnd Hdone Hrest
                   | done m_d t_d ts h q b l m Hser Hnd Hdone Hh Hq Hb Hg Hrun Hrest].
  - (* the mutex is free: only a waiting thread can move, by taking it *)
    destruct (finished_or_waiting_stuck tid done ts _ _ _ _ Hdone (Hrest tid) Hp Hthr)
      as (Hnin & _ & -> & Hg & Hb & ->).
    cbn [regs log]. rewrite <- (app_nil_r t_d). change [] with (map (pair tid) (@nil (Z * Z))).
    apply (inv_held ts0 m0 done m_d t_d _ tid p' p' [] m_d); auto.
    + intros i r Hin. rewrite list_lookup_insert_ne; [auto | ].
      intros ->. apply Hnin. apply (list_elem_of_fmap_2 fst) in Hin. exact Hin.
    + apply list_lookup_insert_eq. exact Hlen.
    + intros i Hi Hne. rewrite list_lookup_insert_ne by auto. auto.
  - destruct (decide (tid = h)) as [-> | Hne].
    + (* the owner moves *)
      rewrite Hq in Hp. inversion Hp; subst q. clear Hp.
      assert (Hdone' : forall q' i r, (i, r) ∈ done -> <[h := q']> ts !! i = Some (Ret r)).
      { intros q' i r Hin. rewrite list_lookup_insert_ne; [auto | ].
        intros ->. apply Hh. apply (list_elem_of_fmap_2 fst) in Hin. exact Hin. }
      assert (Hrest' : forall q' i, i ∉ done.*1 -> i <> h -> <[h := q']> ts !! i = ts0 !! i).
      { intros q' i Hi Hne. rewrite list_lookup_insert_ne by auto. auto. }
      destruct Hg as [a k Hgk | v a k Hgk | r | ];
        inversion Hthr; subst; cbn [regs log owner] in *.
      * eapply inv_held with (done := done) (t_d := t_d) (b := b) (l := l);
          [exact Hser | exact Hnd | apply Hdone' | exact Hh
          | apply list_lookup_insert_eq; exact Hlen | exact Hb | apply Hgk
          | exact Hrun | apply Hrest'].
      * rewrite <- app_assoc.
        change [(h, (a, u32 v))] with (map (pair h) [(a, u32 v)]).
        rewrite <- map_app.
        eapply inv_held with (done := done) (t_d := t_d) (b := b)
          (l := l ++ [(a, u32 v)]);
          [exact Hser | exact Hnd | apply Hdone' | exact Hh
          | apply list_lookup_insert_eq; exact Hlen | exact Hb | exact Hgk
          | | apply Hrest'].
        intros r mf t Hk. rewrite <- app_assoc. apply Hrun.
        cbn [run]. rewrite Hk. reflexivity.
      * apply inv_free with (done := done ++ [(h, r)]).
        -- eapply serial_snoc; [exact Hser | exact Hb | ].
           cbn [run]. rewrite <- (app_nil_r l). apply Hrun. reflexivity.
        -- rewrite fmap_app. apply NoDup_app. split; [exact Hnd | ].
           split; [ | apply NoDup_singleton].
           intros x Hx Hx'. apply list_elem_of_singleton in Hx'. cbn in Hx'. subst x. auto.
        -- intros i r' Hin. apply elem_of_app in Hin as [Hin | Hin]; [auto | ].
           apply list_elem_of_singleton in Hin. inversion Hin; subst.
           apply list_lookup_insert_eq. exact Hlen.
        -- intros i Hi. rewrite fmap_app in Hi. apply not_elem_of_app in Hi as [Hi Hi'].
           apply Hrest'; [exact Hi | ].
           intros ->. apply Hi'. apply list_elem_of_singleton. reflexivity.
    + (* another thread cannot move while the mutex is taken *)
      destruct (finished_or_waiting_stuck tid done ts _ _ _ _ Hdone
                  (fun Hi => Hrest tid Hi Hne) Hp Hthr) as (_ & Hfree & _).
      discriminate.
Qed.

Lemma pool_inv_reachable (s : instance) (ts : list (io Z)) :
  rtc pool_step (idle m0, ts0) (s, ts) -> pool_inv ts0 m0 s ts.
Proof.
  intros Hrtc.
  apply (rtc_ind_r (fun y => pool_inv ts0 m0 y.1 y.2) (idle m0, ts0)) in Hrtc.
  - exact Hrtc.
  - apply pool_inv_init.
  - intros [s1 ts1] [s2 ts2] _ Hstep IH. eapply pool_inv_step; [exact IH | exact Hstep].
Qed.

End Pool.

(** ** The calls are critical sections *)

Lemma guarded_loop (phys_addrs : list Z) (rest : io Z) (f : Z -> io Z) :
  guarded (bind rest f) ->
  guarded (f (- EINVAL)) ->
  forall (todo : nat) (i : Z), guarded (bind (page_table_loop phys_addrs todo i rest) f).
Proof.
  intros Hrest Hdone. induction todo as [ | todo IH]; intros i; cbn [page_table_loop].
  - exact Hrest.
  - destruct (phys_addrs !! Z.to_nat i) as [a | ]; [ | constructor].
    destruct (a =? 0); [exact Hdone | ].
    cbn [xocl_dr_reg_write32 bind]. constructor. constructor. apply IH.
Qed.

Lemma call_prog_critical (c : call) : critical (call_prog c).
Proof.
  destruct c as [phys_addrs base_addr entry_sz num | ]; cbn [call_prog].
  - unfold addr_translator_set_page_table.
    cbn [mutex_lock xocl_dr_reg_read32 bind].
    eexists. split; [reflexivity | ].
    constructor. intros cap.
    destruct (num >? max_num_apertures cap); [constructor | ].
    destruct (negb (is_power_of_2 num)); [constructor | ].
    apply guarded_loop; constructor. constructor. constructor. constructor. constructor.
  - unfold addr_translator_get_entries_num.
    cbn [mutex_lock mutex_unlock xocl_dr_reg_read32 bind].
    eexists. split; [reflexivity | ]. constructor. intros cap. constructor.
Qed.

(** ** Running the calls one after another is one of the interleavings *)

Lemma exec_guarded (tid : nat) (p : io Z) :
  guarded p ->
  forall (m : gmap Z Z) (lg : list (nat * (Z * Z))) (ts : list (io Z)) r m' t,
    run p m = Some (r, m', t) ->
    ts !! tid = Some p ->
    rtc pool_step (Instance m lg (Some tid), ts)
      (Instance m' (lg ++ map (pair tid) t) None, <[tid := Ret r]> ts).
Proof.
  induction 1 as [a k _ IH | v a k _ IH | r0 | ]; intros m lg ts r m' t Hrun Hp;
    cbn [run] in Hrun.
  - eapply rtc_l.
    + eapply pool_step_thread; [exact Hp | apply step_read].
    + cbn [regs]. rewrite <- (list_insert_insert_eq ts tid (Ret r) (k (read32 m a))).
      apply (IH (read32 m a)); [exact Hrun | ].
      apply list_lookup_insert_eq, (lookup_lt_Some _ _ _ Hp).
  - destruct (run k (write32 m a v)) as [[[r1 m1] t1] | ] eqn:Hk; [ | discriminate].
    inversion Hrun; subst. eapply rtc_l.
    + eapply pool_step_thread; [exact Hp | apply step_write].
    + cbn [regs log owner]. rewrite <- (list_insert_insert_eq ts tid (Ret r) k).
      change (map (pair tid) ((a, u32 v) :: t1))
        with ([(tid, (a, u32 v))] ++ map (pair tid) t1).
      rewrite app_assoc.
      apply IH; [exact Hk | ].
      apply list_lookup_insert_eq, (lookup_lt_Some _ _ _ Hp).
  - inversion Hrun; subst. cbn [map]. rewrite app_nil_r. apply rtc_once.
    apply (pool_step_thread tid (Instance m' lg (Some tid)) ts _
             (Instance m' lg None) _ Hp).
    apply (step_unlock tid (Instance m' lg (Some tid))). reflexivity.
  - discriminate.
Qed.

Lemma exec_critical (tid : nat) (p : io Z) (m : gmap Z Z) (lg : list (nat * (Z * Z)))
    (ts : list (io Z)) (r : Z) (m' : gmap Z Z) (t : list (Z * Z)) :
  critical p ->
  run p m = Some (r, m', t) ->
  ts !! tid = Some p ->
  rtc pool_step (Instance m lg None, ts)
    (Instance m' (lg ++ map (pair tid) t) None, <[tid := Ret r]> ts).
Proof.
  intros (b & -> & Hg) Hrun Hp. cbn [run] in Hrun. eapply rtc_l.
  - eapply pool_step_thread; [exact Hp | apply step_lock; reflexivity].
  - cbn [regs log]. rewrite <- (list_insert_insert_eq ts tid (Ret r) b).
    apply (exec_guarded tid b Hg); [exact Hrun | ].
    apply list_lookup_insert_eq, (lookup_lt_Some _ _ _ Hp).
Qed.

(** Two calls that return when run one after the other can run so on the
    shared instance. *)
Lemma exec_in_order (c1 c2 : call) (m0 m1 m2 : gmap Z Z) (r1 r2 : Z) (t1 t2 : list (Z * Z)) :
  run (call_prog c1) m0 = Some (r1, m1, t1) ->
  run (call_prog c2) m1 = Some (r2, m2, t2) ->
  rtc pool_step (idle m0, [call_prog c1; call_prog c2])
    (Instance m2 (map (pair 0%nat) t1 ++ map (pair 1%nat) t2) None, [Ret r1; Ret r2]).
Proof.
  intros H1 H2. etransitivity.
  - apply (exec_critical 0 (call_prog c1) m0 [] _ r1 m1 t1 (call_prog_critical c1) H1).
    reflexivity.
  - apply (exec_critical 1 (call_prog c2) m1 _ [Ret r1; call_prog c2] r2 m2 t2
             (call_prog_critical c2) H2).
    reflexivity.
Qed.

(** ** Two calls *)

Section TwoCalls.

Variables pA pB : io Z.



End TwoCalls.




(** * Further properties of the driver *)

(** ** What a call can do to the registers *)

(** Every returning call is one of three: rejected by a check, stopped at a
    zero address after the entries before it, or completed. *)
Lemma set_page_table_outcomes
    (m m' : gmap Z Z) (t : list (Z * Z)) (ret : Z)
    (phys_addrs : list Z) (base_addr entry_sz num : Z) :
  run (addr_translator_set_page_table phys_addrs base_addr entry_sz num) m
  = Some (ret, m', t) ->
  m' = replay t m /\
  ((ret = - EINVAL /\ t = [] /\
    (num > max_num_apertures (read32 m Layout.cap) \/ is_power_of_2 num = false)) \/
   (ret = - EINVAL /\ 1 <= num <= 256 /\
    num <= max_num_apertures (read32 m Layout.cap) /\ is_power_of_2 num = true /\
    exists d : nat, (d < Z.to_nat num)%nat /\
      phys_addrs !! d = Some 0 /\
      (forall j, 0 <= j < Z.of_nat d -> entry_ok phys_addrs j) /\
      t = loop_writes phys_addrs d 0) \/
   (ret = 0 /\ 1 <= num <= 256 /\
    num <= max_num_apertures (read32 m Layout.cap) /\ is_power_of_2 num = true /\
    (forall j, 0 <= j < num -> entry_ok phys_addrs j) /\
    t = loop_writes phys_addrs (Z.to_nat num) 0 ++ commit_writes base_addr entry_sz num)).
Proof.
  intros Hrun. split; [exact (run_replay _ _ _ _ _ Hrun) | ].
  destruct (Z.gtb_spec num (max_num_apertures (read32 m Layout.cap))) as [Hgt | Hle].
  { rewrite set_page_table_rejects in Hrun by (left; lia).
    inversion Hrun; subst. left. split; [reflexivity | ]. split; [reflexivity | left; lia]. }
  destruct (is_power_of_2 num) eqn:Hpow.
  2:{ rewrite set_page_table_rejects in Hrun by (right; exact Hpow).
      inversion Hrun; subst. left. auto. }
  pose proof (power_of_2_below_field _ _ Hle Hpow) as Hnum.
  destruct (run_checked phys_addrs base_addr entry_sz num m Hle Hpow) as (rest & Hrest & Hrw).
  rewrite Hrw in Hrun.
  destruct (loop_cases phys_addrs (Z.to_nat num) 0) as [Hok | (d & Hd & Hok & [Hz | Hn])].
  - rewrite run_loop_ok, Hrest in Hrun by exact Hok. inversion Hrun; subst.
    right; right. repeat (split; [reflexivity || lia || exact Hpow | ]).
    split; [ | reflexivity]. intros j Hj. apply Hok. lia.
  - rewrite (run_loop_zero phys_addrs rest d _ 0 m Hd Hok Hz) in Hrun.
    inversion Hrun; subst. right; left.
    repeat (split; [reflexivity || lia || exact Hpow | ]).
    exists d. split; [exact Hd | ]. split; [ | split; [exact Hok | reflexivity]].
    rewrite <- Hz. f_equal. lia.
  - rewrite (run_loop_fault phys_addrs rest d _ 0 m Hd Hok Hn) in Hrun. discriminate.
Qed.

(** The writes of a returning call go to the control registers and to the
    entries below [num]; a failing call writes no control register. *)
Lemma set_page_table_write_places
    (m m' : gmap Z Z) (t : list (Z * Z)) (ret : Z)
    (phys_addrs : list Z) (base_addr entry_sz num : Z) :
  run (addr_translator_set_page_table phys_addrs base_addr entry_sz num) m
  = Some (ret, m', t) ->
  forall off v, (off, v) ∈ t ->
    (ret = 0 /\ control_reg off) \/
    exists i, 0 <= i < num /\ (off = 0x800 + 8 * i \/ off = 0x800 + 8 * i + 4).
Proof.
  intros Hrun off v Hin.
  destruct (set_page_table_outcomes _ _ _ _ _ _ _ _ Hrun)
    as (_ & [(_ & -> & _) | [(_ & Hnum & _ & _ & d & Hd & _ & _ & ->)
                             | (-> & Hnum & _ & _ & _ & ->)]]).
  - inversion Hin.
  - right. apply elem_of_loop_writes in Hin as (j & Hj & Hin). exists j.
    split; [lia | ]. apply elem_of_entry_writes in Hin as [[-> _] | [-> _]]; auto.
  - apply elem_of_app in Hin as [Hin | Hin].
    + right. apply elem_of_loop_writes in Hin as (j & Hj & Hin). exists j.
      split; [lia | ]. apply elem_of_entry_writes in Hin as [[-> _] | [-> _]]; auto.
    + left. split; [reflexivity | ]. unfold control_reg.
      apply elem_of_commit_writes in Hin as [[-> _] | [[-> _] | [[-> _] | [-> _]]]]; auto.
Qed.

Lemma set_page_table_untouched
    (m m' : gmap Z Z) (t : list (Z * Z)) (ret : Z)
    (phys_addrs : list Z) (base_addr entry_sz num : Z) (off : Z) :
  run (addr_translator_set_page_table phys_addrs base_addr entry_sz num) m
  = Some (ret, m', t) ->
  (forall i, 0 <= i < num -> off <> 0x800 + 8 * i /\ off <> 0x800 + 8 * i + 4) ->
  ret <> 0 \/ ~ control_reg off ->
  read32 m' off = read32 m off.
Proof.
  intros Hrun Hentry Hctl.
  pose proof (set_page_table_write_places _ _ _ _ _ _ _ _ Hrun off) as Hplaces.
  rewrite (run_replay _ _ _ _ _ Hrun). apply read32_replay_other.
  intros v Hin. destruct (Hplaces v Hin) as [[H0 Hc] | (i & Hi & Hoff)].
  - destruct Hctl as [Hne | Hnc]; [exact (Hne H0) | exact (Hnc Hc)].
  - destruct (Hentry i Hi) as [H1 H2]. destruct Hoff; contradiction.
Qed.

(** X1: a call that returns leaves alone every register other than the four
    control registers and the halves of the entries below [num]; when it
    fails it leaves the control registers alone too. *)
Theorem set_page_table_frame
    (m m' : gmap Z Z) (t : list (Z * Z)) (ret : Z)
    (phys_addrs : list Z) (base_addr entry_sz num : Z) (off : Z) :
  run (addr_translator_set_page_table phys_addrs base_addr entry_sz num) m
  = Some (ret, m', t) ->
  (forall i, 0 <= i < num -> off <> 0x800 + 8 * i /\ off <> 0x800 + 8 * i + 4) ->
  ret <> 0 \/ ~ control_reg off ->
  read32 m' off = read32 m off.
Proof. apply set_page_table_untouched. Qed.

Lemma set_page_table_frame_witness :
  exists m' t,
    run (addr_translator_set_page_table [0x1000; 0x2000] 0 0x1000 2)
      (<[0x810 := 0x77]> regs_cap256) = Some (0, m', t) /\
    read32 m' 0x810 = 0x77.
Proof.
  assert (H : run (addr_translator_set_page_table [0x1000; 0x2000] 0 0x1000 2)
                (<[0x810 := 0x77]> regs_cap256)
              = Some (0, replay [(0x800, 0x1000); (0x804, 0); (0x808, 0x2000); (0x80c, 0);
                                 (0x10, 0); (0x14, 0); (0x18, 13); (0x8, 2)]
                           (<[0x810 := 0x77]> regs_cap256),
                      [(0x800, 0x1000); (0x804, 0); (0x808, 0x2000); (0x80c, 0);
                       (0x10, 0); (0x14, 0); (0x18, 13); (0x8, 2)]))
    by (vm_compute; reflexivity).
  eexists _, _. split; [exact H | ].
  rewrite (set_page_table_frame _ _ _ _ _ _ _ _ 0x810 H).
  - reflexivity.
  - intros i Hi. lia.
  - right. unfold control_reg. lia.
Defined.

Lemma set_page_table_keeps_low
    (m m' : gmap Z Z) (t : list (Z * Z)) (ret : Z)
    (phys_addrs : list Z) (base_addr entry_sz num : Z) (off : Z) :
  run (addr_translator_set_page_table phys_addrs base_addr entry_sz num) m
  = Some (ret, m', t) ->
  0 <= off < 0x8 ->
  read32 m' off = read32 m off.
Proof.
  intros Hrun Hoff. apply (set_page_table_untouched _ _ _ _ _ _ _ _ _ Hrun).
  - intros i Hi. lia.
  - right. unfold control_reg. lia.
Qed.

(** X2: whatever a call does, a capacity query gives the same answer after
    it as before it: the capability and version registers are never
    written. *)
Theorem set_page_table_keeps_capacity
    (m m' : gmap Z Z) (t : list (Z * Z)) (ret : Z)
    (phys_addrs : list Z) (base_addr entry_sz num : Z) :
  run (addr_translator_set_page_table phys_addrs base_addr entry_sz num) m
  = Some (ret, m', t) ->
  read32 m' 0x0 = read32 m 0x0 /\ read32 m' 0x4 = read32 m 0x4 /\
  exists v, run addr_translator_get_entries_num m = Some (v, m, []) /\
            run addr_translator_get_entries_num m' = Some (v, m', []).
Proof.
  intros Hrun.
  pose proof (set_page_table_keeps_low _ _ _ _ _ _ _ _ 0 Hrun ltac:(lia)) as H0.
  pose proof (set_page_table_keeps_low _ _ _ _ _ _ _ _ 4 Hrun ltac:(lia)) as H4.
  split; [exact H0 | ]. split; [exact H4 | ].
  exists (max_num_apertures (read32 m Layout.cap)). split; [reflexivity | ].
  cbn. change Layout.cap with 4. rewrite H4. reflexivity.
Qed.

Lemma set_page_table_keeps_capacity_witness :
  exists m' t,
    run (addr_translator_set_page_table [0x1000; 0x2000] 0 0x1000 2) regs_cap256
    = Some (0, m', t) /\
    run addr_translator_get_entries_num m' = Some (256, m', []).
Proof.
  assert (H : run (addr_translator_set_page_table [0x1000; 0x2000] 0 0x1000 2) regs_cap256
              = Some (0, replay [(0x800, 0x1000); (0x804, 0); (0x808, 0x2000); (0x80c, 0);
                                 (0x10, 0); (0x14, 0); (0x18, 13); (0x8, 2)] regs_cap256,
                      [(0x800, 0x1000); (0x804, 0); (0x808, 0x2000); (0x80c, 0);
                       (0x10, 0); (0x14, 0); (0x18, 13); (0x8, 2)]))
    by (vm_compute; reflexivity).
  eexists _, _. split; [exact H | ].
  destruct (set_page_table_keeps_capacity _ _ _ _ _ _ _ _ H) as (_ & _ & v & Hv & Hv').
  rewrite Hv'. vm_compute in Hv. inversion Hv. reflexivity.
Defined.

(** ** When a call returns, and with what *)

(** X3: when the array holds at least [num] addresses the call returns, with
    0 or [-EINVAL], and with 0 exactly when [num] is within the capacity, a
    power of two, and the first [num] addresses are all non-zero. *)
Theorem set_page_table_result
    (m : gmap Z Z) (phys_addrs : list Z) (base_addr entry_sz num : Z) :
  num <= Z.of_nat (length phys_addrs) ->
  exists ret m' t,
    run (addr_translator_set_page_table phys_addrs base_addr entry_sz num) m
    = Some (ret, m', t) /\
    (ret = 0 \/ ret = - EINVAL) /\
    (ret = 0 <->
     num <= max_num_apertures (read32 m 0x4) /\
     (exists k, 0 <= k /\ num = 2 ^ k) /\
     (forall j, 0 <= j < num -> exists a, phys_addrs !! Z.to_nat j = Some a /\ a <> 0)).
Proof.
  intros Hlen.
  destruct (Z.gtb_spec num (max_num_apertures (read32 m Layout.cap))) as [Hgt | Hle].
  { eexists _, _, _. split; [apply set_page_table_rejects; left; lia | ].
    split; [right; reflexivity | ]. split; [discriminate | ].
    intros (Hcap & _). change 4 with Layout.cap in Hcap. lia. }
  destruct (is_power_of_2 num) eqn:Hpow.
  2:{ eexists _, _, _. split; [apply set_page_table_rejects; right; exact Hpow | ].
      split; [right; reflexivity | ]. split; [discriminate | ].
      intros (_ & Hp & _). apply is_power_of_2_spec in Hp. congruence. }
  pose proof (power_of_2_below_field _ _ Hle Hpow) as Hnum.
  destruct (loop_cases phys_addrs (Z.to_nat num) 0) as [Hok | (d & Hd & Hok & [Hz | Hn])].
  - eexists _, _, _. split.
    + apply set_page_table_programs; [exact Hle | exact Hpow | ].
      intros j Hj. apply Hok. lia.
    + split; [left; reflexivity | ]. split; [ | reflexivity].
      intros _. split; [exact Hle | ]. split; [apply is_power_of_2_spec, Hpow | ].
      intros j Hj. apply Hok. lia.
  - eexists _, _, _. split.
    + apply (set_page_table_zero_entry _ _ _ _ _ Hle Hpow (Z.of_nat d)); [lia | exact Hok | ].
      rewrite <- Hz. f_equal; lia.
    + split; [right; reflexivity | ]. split; [discriminate | ].
      intros (_ & _ & Hall). destruct (Hall (Z.of_nat d) ltac:(lia)) as (a & Ha & Hnz).
      replace (Z.to_nat (0 + Z.of_nat d)) with (Z.to_nat (Z.of_nat d)) in Hz by (f_equal; lia).
      congruence.
  - exfalso. apply lookup_ge_None in Hn. lia.
Qed.

Lemma set_page_table_result_witness :
  exists ret m' t,
    run (addr_translator_set_page_table [0x1000; 0; 0x3000; 0x4000] 0 0x1000 4) regs_cap256
    = Some (ret, m', t) /\
    (ret = 0 \/ ret = - EINVAL) /\
    (ret = 0 <->
     4 <= max_num_apertures (read32 regs_cap256 0x4) /\
     (exists k, 0 <= k /\ 4 = 2 ^ k) /\
     (forall j, 0 <= j < 4 ->
        exists a, [0x1000; 0; 0x3000; 0x4000] !! Z.to_nat j = Some a /\ a <> 0)).
Proof.
  apply (set_page_table_result regs_cap256 [0x1000; 0; 0x3000; 0x4000] 0 0x1000 4).
  cbn. lia.
Defined.

(** X4: [num <= 0] is always rejected, and so is every call when the
    capacity field is 0: no write, registers unchanged. *)
Theorem set_page_table_empty
    (m : gmap Z Z) (phys_addrs : list Z) (base_addr entry_sz num : Z) :
  num <= 0 \/ max_num_apertures (read32 m 0x4) = 0 ->
  run (addr_translator_set_page_table phys_addrs base_addr entry_sz num) m
  = Some (- EINVAL, m, []).
Proof.
  intros H. apply set_page_table_rejects.
  destruct (is_power_of_2 num) eqn:Hpow; [left | right; reflexivity].
  apply is_power_of_2_spec in Hpow as (k & Hk & ->).
  pose proof (Z.pow_pos_nonneg 2 k ltac:(lia) Hk).
  destruct H as [H | H]; [lia | ]. change Layout.cap with 4. lia.
Qed.

Lemma set_page_table_empty_witness :
  run (addr_translator_set_page_table [] 0 0x1000 0) regs_cap256
  = Some (- EINVAL, regs_cap256, []) /\
  run (addr_translator_set_page_table [0x1000] 0 0x1000 1) (<[0x4 := 0xFFFF]> ∅)
  = Some (- EINVAL, <[0x4 := 0xFFFF]> ∅, []).
Proof.
  split.
  - apply set_page_table_empty. left. lia.
  - apply set_page_table_empty. right. vm_compute. reflexivity.
Defined.

Lemma length_loop_writes (phys_addrs : list Z) (d : nat) :
  forall i, length (loop_writes phys_addrs d i) = (2 * d)%nat.
Proof.
  induction d as [ | d IH]; intros i; cbn [loop_writes]; [reflexivity | ].
  rewrite length_app, IH. cbn. lia.
Qed.

(** X5: a call makes at most 516 register writes, and exactly [2 * num + 4]
    when it returns 0. *)
Theorem set_page_table_write_count
    (m m' : gmap Z Z) (t : list (Z * Z)) (ret : Z)
    (phys_addrs : list Z) (base_addr entry_sz num : Z) :
  run (addr_translator_set_page_table phys_addrs base_addr entry_sz num) m
  = Some (ret, m', t) ->
  (length t <= 516)%nat /\
  (ret = 0 -> Z.of_nat (length t) = 2 * num + 4) /\
  (ret <> 0 -> Z.of_nat (length t) < 2 * num \/ t = []).
Proof.
  intros Hrun.
  destruct (set_page_table_outcomes _ _ _ _ _ _ _ _ Hrun)
    as (_ & [(-> & -> & _) | [(-> & Hnum & _ & _ & d & Hd & _ & _ & ->)
                              | (-> & Hnum & _ & _ & _ & ->)]]).
  - cbn. split; [lia | ]. split; [discriminate | auto].
  - rewrite length_loop_writes. split; [lia | ]. split; [discriminate | ]. intros _. left. lia.
  - rewrite length_app, length_loop_writes. cbn. split; [lia | ]. split; [lia | ].
    intros H. contradiction.
Qed.

Lemma set_page_table_write_count_witness :
  exists m' t,
    run (addr_translator_set_page_table [0x1000; 0x2000] 0 0x1000 2) regs_cap256
    = Some (0, m', t) /\
    (length t <= 516)%nat /\ Z.of_nat (length t) = 2 * 2 + 4.
Proof.
  assert (H : run (addr_translator_set_page_table [0x1000; 0x2000] 0 0x1000 2) regs_cap256
              = Some (0, replay [(0x800, 0x1000); (0x804, 0); (0x808, 0x2000); (0x80c, 0);
                                 (0x10, 0); (0x14, 0); (0x18, 13); (0x8, 2)] regs_cap256,
                      [(0x800, 0x1000); (0x804, 0); (0x808, 0x2000); (0x80c, 0);
                       (0x10, 0); (0x14, 0); (0x18, 13); (0x8, 2)]))
    by (vm_compute; reflexivity).
  eexists _, _. split; [exact H | ].
  destruct (set_page_table_write_count _ _ _ _ _ _ _ _ H) as (Hle & Heq & _).
  split; [exact Hle | exact (Heq eq_refl)].
Defined.

(** ** Calling again *)

Lemma lookup_replay_written (t : list (Z * Z)) : forall (m1 m2 : gmap Z Z) (off : Z),
  off ∈ t.*1 -> replay t m1 !! off = replay t m2 !! off.
Proof.
  induction t as [ | [a x] t IH]; intros m1 m2 off Hin; [inversion Hin | ].
  change (replay ((a, x) :: t) m1) with (replay t (<[a := x]> m1)).
  change (replay ((a, x) :: t) m2) with (replay t (<[a := x]> m2)).
  destruct (decide (off ∈ t.*1)) as [Ht | Ht]; [apply IH, Ht | ].
  assert (Hno : forall m : gmap Z Z, replay t m !! off = m !! off).
  { clear -Ht. induction t as [ | [b y] t IH]; intros m; [reflexivity | ].
    cbn in Ht. apply not_elem_of_cons in Ht as [Hne Ht].
    change (replay ((b, y) :: t) m) with (replay t (<[b := y]> m)).
    rewrite IH by exact Ht. apply lookup_insert_ne. congruence. }
  rewrite !Hno. cbn in Hin. apply elem_of_cons in Hin as [-> | Hin]; [ | contradiction].
  rewrite !lookup_insert_eq. reflexivity.
Qed.

Lemma lookup_replay_unwritten (t : list (Z * Z)) : forall (m : gmap Z Z) (off : Z),
  off ∉ t.*1 -> replay t m !! off = m !! off.
Proof.
  induction t as [ | [b y] t IH]; intros m off Ht; [reflexivity | ].
  cbn in Ht. apply not_elem_of_cons in Ht as [Hne Ht].
  change (replay ((b, y) :: t) m) with (replay t (<[b := y]> m)).
  rewrite IH by exact Ht. apply lookup_insert_ne. congruence.
Qed.

(** Applying a list of writes twice is applying it once. *)
Lemma replay_idem (t : list (Z * Z)) (m : gmap Z Z) : replay t (replay t m) = replay t m.
Proof.
  apply map_eq. intros off. destruct (decide (off ∈ t.*1)) as [Hin | Hnin].
  - apply lookup_replay_written, Hin.
  - apply lookup_replay_unwritten, Hnin.
Qed.

(** X6: a call is idempotent: made again on the registers it left, with the
    same arguments, it returns the same result, makes the same writes and
    leaves the registers as they are. *)
Theorem set_page_table_idempotent
    (m m' : gmap Z Z) (t : list (Z * Z)) (ret : Z)
    (phys_addrs : list Z) (base_addr entry_sz num : Z) :
  run (addr_translator_set_page_table phys_addrs base_addr entry_sz num) m
  = Some (ret, m', t) ->
  run (addr_translator_set_page_table phys_addrs base_addr entry_sz num) m'
  = Some (ret, m', t).
Proof.
  intros Hrun.
  pose proof (set_page_table_keeps_low _ _ _ _ _ _ _ _ 4 Hrun ltac:(lia)) as Hcap.
  change 4 with Layout.cap in Hcap.
  destruct (set_page_table_outcomes _ _ _ _ _ _ _ _ Hrun)
    as (Hm' & [(-> & -> & Hbad) | [(-> & Hnum & Hle & Hpow & d & Hd & Hz & Hok & ->)
                                  | (-> & Hnum & Hle & Hpow & Hok & ->)]]).
  - cbn in Hm'. subst m'. exact Hrun.
  - rewrite <- Hcap in Hle.
    rewrite (set_page_table_zero_entry _ _ _ _ _ Hle Hpow (Z.of_nat d));
      [ | lia | exact Hok | rewrite Nat2Z.id; exact Hz].
    rewrite Nat2Z.id. subst m'. rewrite replay_idem. reflexivity.
  - rewrite <- Hcap in Hle.
    rewrite (set_page_table_programs _ base_addr entry_sz _ _ Hle Hpow Hok).
    subst m'. rewrite replay_idem. reflexivity.
Qed.

Lemma set_page_table_idempotent_witness :
  exists m' t,
    run (addr_translator_set_page_table [0x1000; 0x2000] 0 0x1000 2) regs_cap256
    = Some (0, m', t) /\
    run (addr_translator_set_page_table [0x1000; 0x2000] 0 0x1000 2) m'
    = Some (0, m', t).
Proof.
  assert (H : run (addr_translator_set_page_table [0x1000; 0x2000] 0 0x1000 2) regs_cap256
              = Some (0, replay [(0x800, 0x1000); (0x804, 0); (0x808, 0x2000); (0x80c, 0);
                                 (0x10, 0); (0x14, 0); (0x18, 13); (0x8, 2)] regs_cap256,
                      [(0x800, 0x1000); (0x804, 0); (0x808, 0x2000); (0x80c, 0);
                       (0x10, 0); (0x14, 0); (0x18, 13); (0x8, 2)]))
    by (vm_compute; reflexivity).
  eexists _, _. split; [exact H | ].
  exact (set_page_table_idempotent _ _ _ _ _ _ _ _ H).
Defined.

(** ** The control registers after a call that returns 0 *)

(** After a call that returns 0 a control register holds what the commit
    writes put in it. *)
Lemma read_control_after_commit
    (m m' : gmap Z Z) (t : list (Z * Z))
    (phys_addrs : list Z) (base_addr entry_sz num : Z) (off v : Z) :
  run (addr_translator_set_page_table phys_addrs base_addr entry_sz num) m
  = Some (0, m', t) ->
  (off, v) ∈ commit_writes base_addr entry_sz num ->
  read32 m' off = v.
Proof.
  intros Hrun Hin.
  destruct (set_page_table_returns_0_writes _ _ _ _ _ _ _ Hrun) as (_ & -> & ->).
  apply read32_replay.
  - intros v' Hin'. apply elem_of_app in Hin' as [Hin' | Hin'].
    + apply loop_writes_offset in Hin'; [ | lia].
      apply commit_writes_offset in Hin. lia.
    + apply elem_of_commit_writes in Hin, Hin'.
      destruct Hin as [[-> ->] | [[-> ->] | [[-> ->] | [-> ->]]]];
        destruct Hin' as [[? ->] | [[? ->] | [[? ->] | [? ->]]]]; (reflexivity || lia).
  - left. apply elem_of_app. right. exact Hin.
Qed.

(** X7: after a call that returns 0, the base-address registers at 0x10 and
    0x14 together hold the 64-bit [base_addr], and the entry-count register
    holds [num]. *)
Theorem set_page_table_base_and_count
    (m m' : gmap Z Z) (t : list (Z * Z))
    (phys_addrs : list Z) (base_addr entry_sz num : Z) :
  run (addr_translator_set_page_table phys_addrs base_addr entry_sz num) m
  = Some (0, m', t) ->
  0 <= base_addr < 2 ^ 64 ->
  Z.lor (read32 m' 0x10) (Z.shiftl (read32 m' 0x14) 32) = base_addr /\
  read32 m' 0x8 = num.
Proof.
  intros Hrun Hbase.
  destruct (set_page_table_returns_0_writes _ _ _ _ _ _ _ Hrun) as (Hnum & _ & _).
  rewrite (read_control_after_commit _ _ _ _ _ _ _ 0x10 _ Hrun)
    by (apply elem_of_commit_writes; left; split; reflexivity).
  rewrite (read_control_after_commit _ _ _ _ _ _ _ 0x14 _ Hrun)
    by (apply elem_of_commit_writes; right; left; split; reflexivity).
  rewrite (read_control_after_commit _ _ _ _ _ _ _ 0x8 _ Hrun)
    by (apply elem_of_commit_writes; right; right; right; split; reflexivity).
  split; [ | apply u32_small; lia].
  rewrite <- (halves_join base_addr Hbase) at 3. do 3 f_equal.
  change 0xFFFFFFFF with (Z.ones 32). rewrite Z.land_ones by lia.
  apply Z.mod_small. rewrite Z.shiftr_div_pow2 by lia. split.
  - apply Z.div_pos; lia.
  - apply Z.div_lt_upper_bound; lia.
Qed.

Lemma set_page_table_base_and_count_witness :
  exists m' t,
    run (addr_translator_set_page_table [0x1000; 0x2000] 0xABCD00000000 0x1000 2) regs_cap256
    = Some (0, m', t) /\
    Z.lor (read32 m' 0x10) (Z.shiftl (read32 m' 0x14) 32) = 0xABCD00000000 /\
    read32 m' 0x8 = 2.
Proof.
  assert (H : run (addr_translator_set_page_table [0x1000; 0x2000] 0xABCD00000000 0x1000 2)
                regs_cap256
              = Some (0, replay [(0x800, 0x1000); (0x804, 0); (0x808, 0x2000); (0x80c, 0);
                                 (0x10, 0); (0x14, 0xABCD); (0x18, 13); (0x8, 2)] regs_cap256,
                      [(0x800, 0x1000); (0x804, 0); (0x808, 0x2000); (0x80c, 0);
                       (0x10, 0); (0x14, 0xABCD); (0x18, 13); (0x8, 2)]))
    by (vm_compute; reflexivity).
  eexists _, _. split; [exact H | ].
  apply (set_page_table_base_and_count _ _ _ _ _ _ _ H). lia.
Defined.

(** X8: with an entry size that is a power of two, [2^e], a call that
    returns 0 writes [log2(num) + e] to the range register when the product
    fits 64 bits, and 0xFFFFFFFF when it does not (the product wraps to 0). *)
Theorem set_page_table_range_power_of_2
    (m m' : gmap Z Z) (t : list (Z * Z))
    (phys_addrs : list Z) (base_addr num e : Z) :
  run (addr_translator_set_page_table phys_addrs base_addr (2 ^ e) num) m
  = Some (0, m', t) ->
  0 <= e ->
  (Z.log2 num + e < 64 -> read32 m' 0x18 = Z.log2 num + e) /\
  (64 <= Z.log2 num + e -> read32 m' 0x18 = 0xFFFFFFFF).
Proof.
  intros Hrun He.
  destruct (set_page_table_returns_0_checks _ _ _ _ _ _ _ Hrun) as [_ Hpow].
  apply is_power_of_2_spec in Hpow as (k & Hk & ->).
  rewrite Z.log2_pow2 by exact Hk.
  rewrite (read_control_after_commit _ _ _ _ _ _ _ 0x18 _ Hrun)
    by (apply elem_of_commit_writes; right; right; left; split; reflexivity).
  rewrite <- Z.pow_add_r by lia. unfold u64. split; intros Hke.
  - rewrite Z.mod_small.
    + unfold ilog2, fls64.
      destruct (Z.eqb_spec (2 ^ (k + e)) 0) as [H0 | _].
      * pose proof (Z.pow_pos_nonneg 2 (k + e)). lia.
      * rewrite Z.log2_pow2 by lia.
        replace (k + e + 1 - 1) with (k + e) by lia. apply u32_small. lia.
    + split; [apply Z.pow_nonneg; lia | apply Z.pow_lt_mono_r; lia].
  - replace (k + e) with (64 + (k + e - 64)) by lia.
    rewrite Z.pow_add_r by lia. rewrite Z.mul_comm, Z.mod_mul by lia. reflexivity.
Qed.

Lemma set_page_table_range_power_of_2_witness :
  exists m1 t1 m2 t2,
    run (addr_translator_set_page_table [0x1000; 0x2000] 0 (2 ^ 12) 2) regs_cap256
    = Some (0, m1, t1) /\ read32 m1 0x18 = 13 /\
    run (addr_translator_set_page_table [0x1000; 0x2000] 0 (2 ^ 63) 2) regs_cap256
    = Some (0, m2, t2) /\ read32 m2 0x18 = 0xFFFFFFFF.
Proof.
  assert (H1 : run (addr_translator_set_page_table [0x1000; 0x2000] 0 (2 ^ 12) 2) regs_cap256
              = Some (0, replay [(0x800, 0x1000); (0x804, 0); (0x808, 0x2000); (0x80c, 0);
                                 (0x10, 0); (0x14, 0); (0x18, 13); (0x8, 2)] regs_cap256,
                      [(0x800, 0x1000); (0x804, 0); (0x808, 0x2000); (0x80c, 0);
                       (0x10, 0); (0x14, 0); (0x18, 13); (0x8, 2)]))
    by (vm_compute; reflexivity).
  assert (H2 : run (addr_translator_set_page_table [0x1000; 0x2000] 0 (2 ^ 63) 2) regs_cap256
              = Some (0, replay [(0x800, 0x1000); (0x804, 0); (0x808, 0x2000); (0x80c, 0);
                                 (0x10, 0); (0x14, 0); (0x18, 0xFFFFFFFF); (0x8, 2)]
                           regs_cap256,
                      [(0x800, 0x1000); (0x804, 0); (0x808, 0x2000); (0x80c, 0);
                       (0x10, 0); (0x14, 0); (0x18, 0xFFFFFFFF); (0x8, 2)]))
    by (vm_compute; reflexivity).
  eexists _, _, _, _. split; [exact H1 | ]. split.
  - apply (proj1 (set_page_table_range_power_of_2 _ _ _ _ _ _ 12 H1 ltac:(lia))).
    change (Z.log2 2) with 1. lia.
  - split; [exact H2 | ].
    apply (proj2 (set_page_table_range_power_of_2 _ _ _ _ _ _ 63 H2 ltac:(lia))).
    change (Z.log2 2) with 1. lia.
Defined.

(** ** A smaller table after a larger one *)

(** X9: after a call that returned 0 with [num1] entries, a second call with
    fewer (or no valid) entries [num2], whatever it returns, leaves the
    entries from [num2] up to [num1] as the first call wrote them. *)
Theorem set_page_table_stale_entries
    (m m1 m2 : gmap Z Z) (t1 t2 : list (Z * Z)) (ret2 : Z)
    (phys1 phys2 : list Z) (base1 base2 sz1 sz2 num1 num2 : Z) (i a : Z) :
  run (addr_translator_set_page_table phys1 base1 sz1 num1) m = Some (0, m1, t1) ->
  run (addr_translator_set_page_table phys2 base2 sz2 num2) m1 = Some (ret2, m2, t2) ->
  0 <= i < num1 -> num2 <= i ->
  phys1 !! Z.to_nat i = Some a ->
  0 <= a < 2 ^ 64 ->
  Z.lor (read32 m2 (0x800 + 8 * i)) (Z.shiftl (read32 m2 (0x800 + 8 * i + 4)) 32) = a.
Proof.
  intros Hrun1 Hrun2 Hi Hi2 Hl Ha.
  rewrite (set_page_table_untouched _ _ _ _ _ _ _ _ (0x800 + 8 * i) Hrun2);
    [ | intros j Hj; lia | right; unfold control_reg; lia].
  rewrite (set_page_table_untouched _ _ _ _ _ _ _ _ (0x800 + 8 * i + 4) Hrun2);
    [ | intros j Hj; lia | right; unfold control_reg; lia].
  destruct (set_page_table_returns_0_writes _ _ _ _ _ _ _ Hrun1) as (_ & -> & ->).
  apply (read_entry_after_loop phys1 (Z.to_nat num1) _ m i a); [ | lia | exact Hl | exact Ha].
  intros off v. apply commit_writes_offset.
Qed.

Lemma set_page_table_stale_entries_witness :
  exists m1 t1 m2 t2,
    run (addr_translator_set_page_table [0x1000; 0x2000; 0x3000; 0x4000] 0 0x1000 4)
      regs_cap256 = Some (0, m1, t1) /\
    run (addr_translator_set_page_table [0x9000] 0 0x1000 1) m1 = Some (0, m2, t2) /\
    read32 m2 0x8 = 1 /\
    Z.lor (read32 m2 (0x800 + 8 * 3)) (Z.shiftl (read32 m2 (0x800 + 8 * 3 + 4)) 32) = 0x4000.
Proof.
  assert (H1 : run (addr_translator_set_page_table [0x1000; 0x2000; 0x3000; 0x4000]
                      0 0x1000 4) regs_cap256
              = Some (0, replay [(0x800, 0x1000); (0x804, 0); (0x808, 0x2000); (0x80c, 0);
                                 (0x810, 0x3000); (0x814, 0); (0x818, 0x4000); (0x81c, 0);
                                 (0x10, 0); (0x14, 0); (0x18, 14); (0x8, 4)] regs_cap256,
                      [(0x800, 0x1000); (0x804, 0); (0x808, 0x2000); (0x80c, 0);
                       (0x810, 0x3000); (0x814, 0); (0x818, 0x4000); (0x81c, 0);
                       (0x10, 0); (0x14, 0); (0x18, 14); (0x8, 4)]))
    by (vm_compute; reflexivity).
  eexists _, _, _, _. split; [exact H1 | ].
  assert (H2 : run (addr_translator_set_page_table [0x9000] 0 0x1000 1)
                 (replay [(0x800, 0x1000); (0x804, 0); (0x808, 0x2000); (0x80c, 0);
                          (0x810, 0x3000); (0x814, 0); (0x818, 0x4000); (0x81c, 0);
                          (0x10, 0); (0x14, 0); (0x18, 14); (0x8, 4)] regs_cap256)
               = Some (0,
                       replay [(0x800, 0x9000); (0x804, 0);
                               (0x10, 0); (0x14, 0); (0x18, 12); (0x8, 1)]
                         (replay [(0x800, 0x1000); (0x804, 0); (0x808, 0x2000); (0x80c, 0);
                                  (0x810, 0x3000); (0x814, 0); (0x818, 0x4000); (0x81c, 0);
                                  (0x10, 0); (0x14, 0); (0x18, 14); (0x8, 4)] regs_cap256),
                       [(0x800, 0x9000); (0x804, 0);
                        (0x10, 0); (0x14, 0); (0x18, 12); (0x8, 1)]))
    by (vm_compute; reflexivity).
  split; [exact H2 | ]. split; [vm_compute; reflexivity | ].
  apply (set_page_table_stale_entries _ _ _ _ _ _ _ _ _ _ _ _ _ _ 3 0x4000 H1 H2);
    [lia | lia | reflexivity | lia].
Defined.

(** ** The text of the status attribute *)

Lemma hex_digits_length_lower (more : nat) : forall (n : Z) (acc : string),
  (1 + String.length acc <= String.length (hex_digits more n acc))%nat.
Proof.
  induction more as [ | more IH]; intros n acc; cbn [hex_digits].
  - cbn. lia.
  - destruct (n / 16 =? 0); [cbn; lia | ].
    etransitivity; [ | apply IH]. cbn. lia.
Qed.

Lemma hex_digits_length_upper (more : nat) : forall (d : nat) (n : Z) (acc : string),
  (d <= more)%nat ->
  0 <= n < 16 ^ (Z.of_nat d + 1) ->
  (String.length (hex_digits more n acc) <= d + 1 + String.length acc)%nat.
Proof.
  induction more as [ | more IH]; intros d n acc Hd Hn; cbn [hex_digits].
  - cbn. lia.
  - destruct (Z.eqb_spec (n / 16) 0) as [Hq | Hq]; [cbn; lia | ].
    destruct d as [ | d].
    + exfalso. apply Hq. apply Z.div_small. cbn in Hn. lia.
    + etransitivity; [apply (IH d); [lia | ] | cbn; lia].
      split; [apply Z.div_pos; lia | ].
      apply Z.div_lt_upper_bound; [lia | ].
      replace (Z.of_nat (S d) + 1) with (Z.succ (Z.of_nat d + 1)) in Hn by lia.
      rewrite Z.pow_succ_r in Hn by lia. lia.
Qed.

Lemma hex_value_append (s1 s2 : string) : forall acc,
  hex_value (s1 ++ s2) acc = hex_value s2 (hex_value s1 acc).
Proof.
  induction s1 as [ | c s1 IH]; intros acc; cbn; [reflexivity | apply IH].
Qed.

Lemma string_length_append (s1 s2 : string) :
  String.length (s1 ++ s2) = (String.length s1 + String.length s2)%nat.
Proof.
  induction s1 as [ | c s1 IH]; simpl; [reflexivity | rewrite IH; reflexivity].
Qed.

(** X10: [num_show] always returns the length of the text it put in [buf],
    which is between 4 and 6 characters: ["0x"], one to three digits and a
    newline. *)
Theorem num_show_length (m : gmap Z Z) :
  exists (len : Z) (buf : string),
    run num_show m = Some ((len, buf), m, []) /\
    len = Z.of_nat (String.length buf) /\
    4 <= len <= 6.
Proof.
  pose (cap := max_num_apertures (read32 m Layout.cap)).
  exists (Z.of_nat (String.length ("0x" ++ sprintf_x cap ++ String "010" ""))),
         ("0x" ++ sprintf_x cap ++ String "010" "")%string.
  split; [reflexivity | ]. split; [reflexivity | ].
  rewrite !string_length_append.
  change (String.length "0x") with 2%nat.
  change (String.length (String "010" "")) with 1%nat.
  pose proof (max_num_apertures_range (read32 m Layout.cap)) as Hr. fold cap in Hr.
  pose proof (hex_digits_length_lower 7 (u32 cap) "") as Hlo.
  assert (Hn : 0 <= u32 cap < 16 ^ (Z.of_nat 2 + 1)).
  { rewrite u32_small by lia. change (16 ^ (Z.of_nat 2 + 1)) with 4096. lia. }
  pose proof (hex_digits_length_upper 7 2 (u32 cap) "" ltac:(lia) Hn) as Hhi.
  fold (sprintf_x cap) in Hlo, Hhi.
  change (String.length "") with 0%nat in Hlo, Hhi. lia.
Qed.

(** X11: the text of [num_show] tells the capacity: two register states
    for which [num_show] gives the same text have the same capacity field
    in the capability register. *)
Theorem num_show_tells_capacity
    (m1 m2 m1' m2' : gmap Z Z) (t1 t2 : list (Z * Z)) (len1 len2 : Z) (buf : string) :
  run num_show m1 = Some ((len1, buf), m1', t1) ->
  run num_show m2 = Some ((len2, buf), m2', t2) ->
  Z.land (Z.shiftr (read32 m1 0x4) 16) 0x1FF = Z.land (Z.shiftr (read32 m2 0x4) 16) 0x1FF.
Proof.
  assert (Hval : forall m : gmap Z Z,
    hex_value ("0x" ++ sprintf_x (max_num_apertures (read32 m Layout.cap))
                 ++ String "010" "") 0
    = 16 * max_num_apertures (read32 m Layout.cap)).
  { intros m. rewrite !hex_value_append, hex_value_sprintf_x.
    change (hex_value "0x" 0) with 0.
    cbn [hex_value]. change (hex_digit_value "010") with 0.
    rewrite u32_small; [lia | ].
    pose proof (max_num_apertures_range (read32 m Layout.cap)). lia. }
  intros H1 H2.
  change (run num_show m1) with
    (Some ((Z.of_nat (String.length ("0x" ++ sprintf_x (max_num_apertures (read32 m1 Layout.cap))
                                       ++ String "010" "")),
            "0x" ++ sprintf_x (max_num_apertures (read32 m1 Layout.cap))
              ++ String "010" "")%string, m1, @nil (Z * Z))) in H1.
  change (run num_show m2) with
    (Some ((Z.of_nat (String.length ("0x" ++ sprintf_x (max_num_apertures (read32 m2 Layout.cap))
                                       ++ String "010" "")),
            "0x" ++ sprintf_x (max_num_apertures (read32 m2 Layout.cap))
              ++ String "010" "")%string, m2, @nil (Z * Z))) in H2.
  injection H1 as _ Hb1 _ _. injection H2 as _ Hb2 _ _.
  pose proof (Hval m1) as V1. pose proof (Hval m2) as V2.
  rewrite Hb1 in V1. rewrite Hb2 in V2.
  change (max_num_apertures (read32 m1 Layout.cap))
    with (Z.land (Z.shiftr (read32 m1 4) 16) 511) in V1.
  change (max_num_apertures (read32 m2 Layout.cap))
    with (Z.land (Z.shiftr (read32 m2 4) 16) 511) in V2.
  lia.
Qed.

Lemma num_show_tells_capacity_witness :
  Z.land (Z.shiftr (read32 regs_cap256 0x4) 16) 0x1FF
  = Z.land (Z.shiftr (read32 (<[0x8 := 4]> regs_cap256) 0x4) 16) 0x1FF.
Proof.
  apply (num_show_tells_capacity regs_cap256 (<[0x8 := 4]> regs_cap256)
           regs_cap256 (<[0x8 := 4]> regs_cap256) [] [] 6 6
           ("0x100" ++ String "010" "")%string);
    vm_compute; reflexivity.
Defined.

(** ** Any number of concurrent calls *)

Lemma call_pool_critical (cs : list call) (i : nat) (p : io Z) :
  (call_prog <$> cs) !! i = Some p -> critical p.
Proof.
  rewrite list_lookup_fmap. destruct (cs !! i) as [c | ]; cbn; intros H; inversion H.
  apply call_prog_critical.
Qed.

Lemma call_prog_not_returned (c : call) (r : Z) : call_prog c <> Ret r.
Proof.
  destruct (call_prog_critical c) as (b & -> & _). discriminate.
Qed.

Lemma pool_length (x y : instance * list (io Z)) :
  rtc pool_step x y -> length y.2 = length x.2.
Proof.
  induction 1 as [ | x y z Hstep _ IH]; [reflexivity | ].
  rewrite IH. inversion Hstep; subst. cbn. apply length_insert.
Qed.

(** Once every thread has returned, all calls are in [done]. *)
Lemma pool_inv_all_returned (cs : list call) (m0 : gmap Z Z) (s : instance) (ts : list (io Z)) :
  pool_inv (call_prog <$> cs) m0 s ts ->
  length ts = length cs ->
  (forall p, p ∈ ts -> exists r, p = Ret r) ->
  exists done,
    serial (call_prog <$> cs) m0 done (regs s) (log s) /\
    done.*1 ≡ₚ seq 0 (length cs) /\
    (forall i r, (i, r) ∈ done -> ts !! i = Some (Ret r)).
Proof.
  intros Hinv Hlen Hret.
  destruct Hinv as [done m_d t_d ts Hser Hnd Hdone Hrest
                   | done m_d t_d ts h q b l m Hser Hnd Hdone Hh Hq Hb Hg Hrun Hrest].
  - exists done. split; [exact Hser | ]. split; [ | exact Hdone].
    apply NoDup_Permutation; [exact Hnd | apply NoDup_seq | ].
    intros x. rewrite elem_of_seq. split.
    + intros Hx. apply list_elem_of_fmap in Hx as ([i r] & -> & Hin).
      apply Hdone, lookup_lt_Some in Hin. cbn. lia.
    + intros [_ Hx]. destruct (decide (x ∈ done.*1)) as [Hin | Hnin]; [exact Hin | exfalso].
      destruct (lookup_lt_is_Some_2 ts x ltac:(lia)) as [p Hp].
      destruct (Hret p (list_elem_of_lookup_2 _ _ _ Hp)) as [r ->].
      rewrite (Hrest x Hnin), list_lookup_fmap in Hp.
      destruct (cs !! x) as [c | ]; cbn in Hp; inversion Hp as [Hc].
      exact (call_prog_not_returned c r Hc).
  - exfalso. destruct (Hret q (list_elem_of_lookup_2 _ _ _ Hq)) as [r ->]. inversion Hg.
Qed.

(** X12: any number of calls (table configurations and capacity queries) run
    concurrently on one instance, interleaved in any way: when all have
    returned, results, registers and writes are those of the calls run one
    after another in some order. *)
Theorem calls_serialized_any_number
    (cs : list call) (m0 : gmap Z Z) (s : instance) (ts : list (io Z)) :
  rtc pool_step (idle m0, call_prog <$> cs) (s, ts) ->
  (forall p, p ∈ ts -> exists r, p = Ret r) ->
  exists done : list (nat * Z),
    serial (call_prog <$> cs) m0 done (regs s) (log s) /\
    done.*1 ≡ₚ seq 0 (length cs) /\
    (forall i r, (i, r) ∈ done -> ts !! i = Some (Ret r)).
Proof.
  intros Hrtc Hret.
  apply (pool_inv_all_returned cs m0 s ts); [ | | exact Hret].
  - apply pool_inv_reachable; [apply call_pool_critical | exact Hrtc].
  - pose proof (pool_length _ _ Hrtc) as Hlen. cbn in Hlen.
    rewrite Hlen. apply length_fmap.
Qed.

Lemma calls_serialized_any_number_witness :
  exists (s : instance) (done : list (nat * Z)),
    serial (call_prog <$> [Configure [0x1000; 0x2000] 0x100000000 0x1000 2; QueryCapacity])
      regs_cap256 done (regs s) (log s) /\
    done.*1 ≡ₚ seq 0 2 /\
    (forall i r, (i, r) ∈ done -> [Ret 0; Ret 256] !! i = Some (Ret r)).
Proof.
  assert (H1 : run (call_prog (Configure [0x1000; 0x2000] 0x100000000 0x1000 2)) regs_cap256
               = Some (0, replay [(0x800, 0x1000); (0x804, 0); (0x808, 0x2000); (0x80c, 0);
                                  (0x10, 0); (0x14, 1); (0x18, 13); (0x8, 2)] regs_cap256,
                       [(0x800, 0x1000); (0x804, 0); (0x808, 0x2000); (0x80c, 0);
                        (0x10, 0); (0x14, 1); (0x18, 13); (0x8, 2)]))
    by (vm_compute; reflexivity).
  pose proof (exec_in_order _ QueryCapacity _ _ _ _ 256 _ [] H1 eq_refl) as Hexec.
  eexists. apply (calls_serialized_any_number
                    [Configure [0x1000; 0x2000] 0x100000000 0x1000 2; QueryCapacity]
                    _ _ _ Hexec).
  intros p Hp. rewrite !elem_of_cons, elem_of_nil in Hp.
  destruct Hp as [-> | [-> | []]]; eexists; reflexivity.
Defined.

(** No call writes the capability register. *)
Lemma call_prog_keeps_cap (c : call) (m m' : gmap Z Z) (r : Z) (t : list (Z * Z)) :
  run (call_prog c) m = Some (r, m', t) -> read32 m' Layout.cap = read32 m Layout.cap.
Proof.
  destruct c as [phys_addrs base_addr entry_sz num | ]; cbn [call_prog]; intros Hrun.
  - apply (set_page_table_keeps_low _ _ _ _ _ _ _ _ 4 Hrun). lia.
  - inversion Hrun; subst. reflexivity.
Qed.

Lemma serial_capacity (cs : list call) (m m_d : gmap Z Z) (done : list (nat * Z))
    (t_d : list (nat * (Z * Z))) :
  serial (call_prog <$> cs) m done m_d t_d ->
  read32 m_d Layout.cap = read32 m Layout.cap /\
  forall i r, (i, r) ∈ done -> cs !! i = Some QueryCapacity ->
    r = max_num_apertures (read32 m Layout.cap).
Proof.
  induction 1 as [m | m i p r m1 t1 done m2 t2 Hi Hp _ [IHcap IHq]].
  - split; [reflexivity | ]. intros i r Hin. inversion Hin.
  - rewrite list_lookup_fmap in Hi.
    destruct (cs !! i) as [c | ] eqn:Hc; cbn in Hi; inversion Hi; subst p.
    pose proof (call_prog_keeps_cap _ _ _ _ _ Hp) as Hcap.
    split; [congruence | ].
    intros j r' Hin Hj. apply elem_of_cons in Hin as [Heq | Hin].
    + inversion Heq; subst. assert (c = QueryCapacity) as -> by congruence.
      inversion Hp. reflexivity.
    + rewrite <- Hcap. apply (IHq j r' Hin Hj).
Qed.

(** X13: a capacity query that runs concurrently with any number of other
    calls returns the capacity field of the registers as they were before
    all of them. *)
Theorem concurrent_query_capacity
    (cs : list call) (m0 : gmap Z Z) (s : instance) (ts : list (io Z)) (i : nat) (r : Z) :
  rtc pool_step (idle m0, call_prog <$> cs) (s, ts) ->
  cs !! i = Some QueryCapacity ->
  ts !! i = Some (Ret r) ->
  r = Z.land (Z.shiftr (read32 m0 0x4) 16) 0x1FF.
Proof.
  intros Hrtc Hc Hr.
  pose proof (pool_inv_reachable _ m0 (call_pool_critical cs) s ts Hrtc) as Hinv.
  assert (Hstart : (call_prog <$> cs) !! i = Some (call_prog QueryCapacity)).
  { rewrite list_lookup_fmap, Hc. reflexivity. }
  assert (Hdone : exists done m_d t_d,
            serial (call_prog <$> cs) m0 done m_d t_d /\ (i, r) ∈ done).
  { destruct Hinv as [done m_d t_d ts Hser Hnd Hdone Hrest
                     | done m_d t_d ts h q b l m Hser Hnd Hdone Hh Hq Hb Hg Hrun Hrest].
    - exists done, m_d, t_d. split; [exact Hser | ].
      destruct (decide (i ∈ done.*1)) as [Hin | Hnin].
      + apply list_elem_of_fmap in Hin as ([j r'] & Hj & Hin). cbn in Hj. subst j.
        pose proof (Hdone _ _ Hin) as Hr'. rewrite Hr in Hr'. inversion Hr'; subst. exact Hin.
      + rewrite (Hrest i Hnin), Hstart in Hr. inversion Hr.
    - exists done, m_d, t_d. split; [exact Hser | ].
      destruct (decide (i = h)) as [-> | Hne].
      { rewrite Hq in Hr. inversion Hr; subst. inversion Hg. }
      destruct (decide (i ∈ done.*1)) as [Hin | Hnin].
      + apply list_elem_of_fmap in Hin as ([j r'] & Hj & Hin). cbn in Hj. subst j.
        pose proof (Hdone _ _ Hin) as Hr'. rewrite Hr in Hr'. inversion Hr'; subst. exact Hin.
      + rewrite (Hrest i Hnin Hne), Hstart in Hr. inversion Hr. }
  destruct Hdone as (done & m_d & t_d & Hser & Hin).
  exact (proj2 (serial_capacity _ _ _ _ _ Hser) i r Hin Hc).
Qed.

Lemma concurrent_query_capacity_witness :
  256 = Z.land (Z.shiftr (read32 regs_cap256 0x4) 16) 0x1FF.
Proof.
  assert (H1 : run (call_prog (Configure [0x1000; 0x2000] 0x100000000 0x1000 2)) regs_cap256
               = Some (0, replay [(0x800, 0x1000); (0x804, 0); (0x808, 0x2000); (0x80c, 0);
                                  (0x10, 0); (0x14, 1); (0x18, 13); (0x8, 2)] regs_cap256,
                       [(0x800, 0x1000); (0x804, 0); (0x808, 0x2000); (0x80c, 0);
                        (0x10, 0); (0x14, 1); (0x18, 13); (0x8, 2)]))
    by (vm_compute; reflexivity).
  pose proof (exec_in_order _ QueryCapacity _ _ _ _ 256 _ [] H1 eq_refl) as Hexec.
  apply (concurrent_query_capacity
           [Configure [0x1000; 0x2000] 0x100000000 0x1000 2; QueryCapacity]
           regs_cap256 _ _ 1%nat 256 Hexec); reflexivity.
Defined.

(** ** Progress of concurrent calls *)

Lemma fault_free_bind {A B : Type} (p : io A) (f : A -> io B) :
  fault_free p -> (forall a, fault_free (f a)) -> fault_free (bind p f).
Proof.
  intros Hp Hf. induction Hp; cbn [bind]; try constructor; auto.
Qed.

Lemma fault_free_loop (phys_addrs : list Z) (rest : io Z) :
  fault_free rest ->
  forall (todo : nat) (i : Z),
    0 <= i -> (Z.to_nat i + todo <= length phys_addrs)%nat ->
    fault_free (page_table_loop phys_addrs todo i rest).
Proof.
  intros Hrest. induction todo as [ | todo IH]; intros i Hi Hlen; cbn [page_table_loop].
  - exact Hrest.
  - destruct (phys_addrs !! Z.to_nat i) as [a | ] eqn:Hl.
    + destruct (a =? 0); [constructor | ].
      cbn [xocl_dr_reg_write32 bind]. constructor. constructor. apply IH; lia.
    + apply lookup_ge_None in Hl. lia.
Qed.

Lemma call_prog_fault_free (c : call) : call_in_bounds c -> fault_free (call_prog c).
Proof.
  destruct c as [phys_addrs base_addr entry_sz num | ]; cbn [call_prog call_in_bounds].
  - intros Hlen. unfold addr_translator_set_page_table.
    cbn [mutex_lock xocl_dr_reg_read32 bind]. constructor. constructor. intros cap.
    assert (Hdone : forall ret : Z, fault_free (mutex_unlock ;; Ret ret)).
    { intros ret. cbn [mutex_unlock bind]. repeat constructor. }
    destruct (Z.gtb_spec num (max_num_apertures cap)) as [ | Hle];
      [apply fault_free_bind; [constructor | exact Hdone] | ].
    destruct (is_power_of_2 num) eqn:Hp; cbn [negb];
      [ | apply fault_free_bind; [constructor | exact Hdone]].
    pose proof (power_of_2_below_field num cap Hle Hp) as Hnum.
    apply fault_free_bind; [ | exact Hdone].
    apply fault_free_loop; [ | lia | lia].
    cbn [xocl_dr_reg_write32 bind]. repeat constructor.
  - intros _. unfold addr_translator_get_entries_num.
    cbn [mutex_lock mutex_unlock xocl_dr_reg_read32 bind]. repeat constructor.
Qed.

Lemma thread_step_fault_free (tid : nat) (s s' : instance) (p p' : io Z) :
  thread_step tid s p s' p' -> fault_free p -> fault_free p'.
Proof.
  intros Hstep Hp. inversion Hstep; subst; inversion Hp; subst; auto.
Qed.

Lemma pool_fault_free (x y : instance * list (io Z)) :
  rtc pool_step x y -> Forall fault_free x.2 -> Forall fault_free y.2.
Proof.
  induction 1 as [ | x y z Hstep _ IH]; [auto | ].
  intros Hx. apply IH. inversion Hstep; subst. cbn in *.
  apply Forall_insert; [exact Hx | ].
  eapply thread_step_fault_free; [eassumption | ].
  eapply Forall_lookup_1; eassumption.
Qed.

(** X14: concurrent calls whose arrays hold at least [num] addresses never
    deadlock: in every state they can reach, either every call has returned
    or some thread can take a step. *)
Theorem calls_never_deadlock
    (cs : list call) (m0 : gmap Z Z) (s : instance) (ts : list (io Z)) :
  Forall call_in_bounds cs ->
  rtc pool_step (idle m0, call_prog <$> cs) (s, ts) ->
  (forall p, p ∈ ts -> exists r, p = Ret r) \/
  exists s' ts', pool_step (s, ts) (s', ts').
Proof.
  intros Hin Hrtc.
  assert (Hff : Forall fault_free ts).
  { apply (pool_fault_free _ _ Hrtc). cbn. apply Forall_fmap.
    eapply Forall_impl; [exact Hin | ]. intros c Hc. apply call_prog_fault_free, Hc. }
  pose proof (pool_inv_reachable _ m0 (call_pool_critical cs) s ts Hrtc) as Hinv.
  destruct Hinv as [done m_d t_d ts Hser Hnd Hdone Hrest
                   | done m_d t_d ts h q b l m Hser Hnd Hdone Hh Hq Hb Hg Hrun Hrest].
  - destruct (decide (Forall (fun p => returned p = true) ts)) as [Hall | Hsome].
    + left. intros p Hp. rewrite Forall_forall in Hall. specialize (Hall p Hp).
      destruct p; try discriminate. eexists. reflexivity.
    + right. apply not_Forall_Exists in Hsome; [ | intros x; apply _].
      apply Exists_exists in Hsome as (p & Hp & Hnr).
      apply list_elem_of_lookup_1 in Hp as [i Hi].
      assert (Hnin : i ∉ done.*1).
      { intros Hd. apply list_elem_of_fmap in Hd as ([j r] & -> & Hd). cbn [fst] in Hi.
        rewrite (Hdone _ _ Hd) in Hi. inversion Hi; subst. apply Hnr. reflexivity. }
      pose proof Hi as Hi0. rewrite (Hrest i Hnin) in Hi0.
      destruct (call_pool_critical cs _ _ Hi0) as (b & -> & _).
      eexists _, _. eapply pool_step_thread; [exact Hi | apply step_lock; reflexivity].
  - right. pose proof (Forall_lookup_1 _ _ _ _ Hff Hq) as Hfq.
    destruct Hg as [a k _ | v a k _ | r | ].
    + eexists _, _. eapply pool_step_thread; [exact Hq | apply step_read].
    + eexists _, _. eapply pool_step_thread; [exact Hq | apply step_write].
    + eexists _, _. eapply pool_step_thread; [exact Hq | apply step_unlock; reflexivity].
    + inversion Hfq.
Qed.

Lemma calls_never_deadlock_witness :
  (forall p, p ∈ [call_prog (Configure [0x1000; 0x2000] 0 0x1000 2); call_prog QueryCapacity] ->
     exists r, p = Ret r) \/
  exists s' ts',
    pool_step (idle regs_cap256,
               [call_prog (Configure [0x1000; 0x2000] 0 0x1000 2); call_prog QueryCapacity])
      (s', ts').
Proof.
  apply (calls_never_deadlock [Configure [0x1000; 0x2000] 0 0x1000 2; QueryCapacity]
           regs_cap256 (idle regs_cap256) _).
  - repeat constructor. cbn. lia.
  - reflexivity.
Defined.

(** ** Where concurrent calls write *)

Lemma call_prog_writes_within (c : call) :
  writes_within (fun a => control_reg a \/ in_page_table a) (call_prog c).
Proof.
  destruct c as [phys_addrs base_addr entry_sz num | ]; cbn [call_prog].
  - unfold addr_translator_set_page_table.
    cbn [mutex_lock xocl_dr_reg_read32 bind].
    constructor. constructor. intros cap.
    assert (Hdone : forall ret : Z,
      writes_within (fun a => control_reg a \/ in_page_table a)
        (mutex_unlock ;; Ret ret)).
    { intros ret. cbn [mutex_unlock bind]. repeat constructor. }
    destruct (Z.gtb_spec num (max_num_apertures cap)) as [ | Hle];
      [apply writes_within_bind; [constructor | exact Hdone] | ].
    destruct (is_power_of_2 num) eqn:Hp; cbn [negb];
      [ | apply writes_within_bind; [constructor | exact Hdone]].
    pose proof (power_of_2_below_field num cap Hle Hp) as Hnum.
    apply writes_within_bind; [ | exact Hdone].
    apply (writes_within_loop _ _ _ 256); [ | | lia | lia].
    + intros i Hi. destruct (page_table_offsets i) as [-> ->].
      split; right; exists i; (split; [lia | auto]).
    + cbn [xocl_dr_reg_write32 bind].
      destruct offsets as (_ & -> & -> & -> & -> & _).
      repeat (apply ww_write; [left; unfold control_reg; lia | ]). apply ww_ret.
  - unfold addr_translator_get_entries_num.
    cbn [mutex_lock mutex_unlock xocl_dr_reg_read32 bind]. repeat constructor.
Qed.

Lemma pool_step_frame (P : Z -> Prop) (s s' : instance) (ts ts' : list (io Z)) :
  pool_step (s, ts) (s', ts') ->
  Forall (writes_within P) ts ->
  Forall (writes_within P) ts' /\
  (forall w, w ∈ log s' -> w ∈ log s \/ P w.2.1) /\
  (forall off, ~ P off -> read32 (regs s') off = read32 (regs s) off).
Proof.
  intros Hstep Hts. inversion Hstep as [tid s1 ts1 p s1' p' Hp Hthr]; subst.
  pose proof (Forall_lookup_1 _ _ _ _ Hts Hp) as Hw.
  inversion Hthr; subst; inversion Hw; subst; cbn [regs log].
  - split; [apply Forall_insert; auto | ]. split; auto.
  - split; [apply Forall_insert; auto | ]. split.
    + intros w Hin. apply elem_of_app in Hin as [Hin | Hin]; [left; exact Hin | right].
      apply list_elem_of_singleton in Hin. subst w. assumption.
    + intros off Hoff. unfold write32. rewrite read32_insert.
      destruct (decide (a = off)) as [-> | _]; [contradiction | reflexivity].
  - split; [apply Forall_insert; auto | ]. split; auto.
  - split; [apply Forall_insert; auto | ]. split; auto.
Qed.

Lemma pool_frame (P : Z -> Prop) (x y : instance * list (io Z)) :
  rtc pool_step x y ->
  Forall (writes_within P) x.2 ->
  (forall w, w ∈ log y.1 -> w ∈ log x.1 \/ P w.2.1) /\
  (forall off, ~ P off -> read32 (regs y.1) off = read32 (regs x.1) off).
Proof.
  induction 1 as [ | [s ts] [s' ts'] z Hstep _ IH]; [auto | ].
  intros Hts. destruct (pool_step_frame P _ _ _ _ Hstep Hts) as (Hts' & Hlog & Hregs).
  destruct (IH Hts') as [IHlog IHregs]. cbn in *. split.
  - intros w Hw. destruct (IHlog w Hw) as [Hin | HP]; [apply Hlog, Hin | right; exact HP].
  - intros off Hoff. rewrite IHregs by exact Hoff. apply Hregs, Hoff.
Qed.

(** X15: however the calls interleave, every write made so far went to a
    control register or to a half of [page_table_phys[i]] with
    [0 <= i <= 255], and every other register holds what it held at the
    start. *)
Theorem concurrent_writes_in_bounds
    (cs : list call) (m0 : gmap Z Z) (s : instance) (ts : list (io Z)) :
  rtc pool_step (idle m0, call_prog <$> cs) (s, ts) ->
  (forall tid off v, (tid, (off, v)) ∈ log s -> control_reg off \/ in_page_table off) /\
  (forall off, ~ control_reg off -> ~ in_page_table off ->
     read32 (regs s) off = read32 m0 off).
Proof.
  intros Hrtc.
  destruct (pool_frame (fun a => control_reg a \/ in_page_table a) _ _ Hrtc) as [Hlog Hregs].
  { cbn. apply Forall_fmap, Forall_forall. intros c _. apply call_prog_writes_within. }
  cbn in *. split.
  - intros tid off v Hin. destruct (Hlog _ Hin) as [Hnil | HP]; [inversion Hnil | exact HP].
  - intros off Hc Hp. apply Hregs. tauto.
Qed.

Lemma concurrent_writes_in_bounds_witness :
  exists s : instance,
    rtc pool_step
      (idle regs_cap256,
       call_prog <$> [Configure [0x1000; 0x2000] 0x100000000 0x1000 2; QueryCapacity])
      (s, [Ret 0; Ret 256]) /\
    (forall tid off v, (tid, (off, v)) ∈ log s -> control_reg off \/ in_page_table off) /\
    (forall off, ~ control_reg off -> ~ in_page_table off ->
       read32 (regs s) off = read32 regs_cap256 off).
Proof.
  assert (H1 : run (call_prog (Configure [0x1000; 0x2000] 0x100000000 0x1000 2)) regs_cap256
               = Some (0, replay [(0x800, 0x1000); (0x804, 0); (0x808, 0x2000); (0x80c, 0);
                                  (0x10, 0); (0x14, 1); (0x18, 13); (0x8, 2)] regs_cap256,
                       [(0x800, 0x1000); (0x804, 0); (0x808, 0x2000); (0x80c, 0);
                        (0x10, 0); (0x14, 1); (0x18, 13); (0x8, 2)]))
    by (vm_compute; reflexivity).
  pose proof (exec_in_order _ QueryCapacity _ _ _ _ 256 _ [] H1 eq_refl) as Hexec.
  eexists. split; [exact Hexec | ].
  exact (concurrent_writes_in_bounds
           [Configure [0x1000; 0x2000] 0x100000000 0x1000 2; QueryCapacity] _ _ _ Hexec).
Defined.

(** ** Attaching and detaching *)

(** X16: on a device with no driver data, [addr_translator_probe] leaves
    driver data set exactly when the allocation, the memory resource, the
    mapping and the sysfs group all succeeded; it returns 0 then, and also
    when the device has no memory resource, in which case nothing is
    attached; otherwise it returns [-ENOMEM], [-EIO] or the sysfs error. *)
Theorem probe_result (k : kernel_answers) (pdev : platform_device) :
  drvdata pdev = None ->
  (is_Some (drvdata (addr_translator_probe k pdev).2) <->
   kzalloc_ok k = true /\ is_Some (mem_resource pdev) /\ ioremap_ok k = true /\
   sysfs_create_group_err k = 0) /\
  ((addr_translator_probe k pdev).1 = 0 <->
   kzalloc_ok k = true /\
   (mem_resource pdev = None \/ (ioremap_ok k = true /\ sysfs_create_group_err k = 0))) /\
  ((addr_translator_probe k pdev).1 = 0 \/
   (addr_translator_probe k pdev).1 = - ENOMEM \/
   (addr_translator_probe k pdev).1 = - EIO \/
   (addr_translator_probe k pdev).1 = sysfs_create_group_err k).
Proof.
  intros Hnone. unfold addr_translator_probe.
  destruct k as [kz io err]. destruct pdev as [res dd n maps grp]. cbn in *. subst dd.
  destruct kz; cbn.
  2:{ split; [split; [intros [x Hx]; discriminate | intros (H & _); discriminate] | ].
      split; [split; [discriminate | intros (H & _); discriminate] | auto]. }
  destruct res as [[res_start res_end] | ]; cbn.
  2:{ split; [split; [intros [x Hx]; discriminate | intros (_ & [x Hx] & _); discriminate] | ].
      split; [split; auto | auto]. }
  destruct io; cbn.
  2:{ split; [split; [intros [x Hx]; discriminate | intros (_ & _ & H & _); discriminate] | ].
      split; [split; [discriminate | intros (_ & [H | [H _]]); discriminate] | auto]. }
  destruct (Z.eqb_spec err 0) as [-> | Herr]; cbn.
  - split; [split; [intros _; eauto 10 | intros _; eauto] | ].
    split; [split; auto | auto].
  - split; [split; [intros [x Hx]; discriminate | intros (_ & _ & _ & H); contradiction] | ].
    split; [split; [intros H; contradiction | intros (_ & [H | [_ H]]); [discriminate | contradiction]] | auto].
Qed.

Lemma probe_result_witness :
  (addr_translator_probe (KernelAnswers true true 0)
     (PlatformDevice None None 0 [] false)).1 = 0 /\
  ~ is_Some (drvdata (addr_translator_probe (KernelAnswers true true 0)
                        (PlatformDevice None None 0 [] false)).2).
Proof.
  destruct (probe_result (KernelAnswers true true 0) (PlatformDevice None None 0 [] false)
              eq_refl) as (Hd & Hr & _).
  split.
  - apply Hr. cbn. auto.
  - intros H. apply Hd in H as (_ & [x Hx] & _). discriminate.
Defined.

(** X17: when [addr_translator_probe] has attached the device,
    [addr_translator_remove] returns 0 and puts the device back as it was
    before the probe: no driver data, no sysfs group, the window unmapped
    and the allocation released. *)
Theorem probe_remove_round_trip (k : kernel_answers) (pdev : platform_device) :
  drvdata pdev = None ->
  sysfs_group pdev = false ->
  is_Some (drvdata (addr_translator_probe k pdev).2) ->
  addr_translator_remove (addr_translator_probe k pdev).2 = (0, pdev).
Proof.
  intros Hnone Hgrp. unfold addr_translator_probe.
  destruct k as [kz io err]. destruct pdev as [res dd n maps grp]. cbn in *. subst dd grp.
  destruct kz; cbn; [ | intros [x Hx]; discriminate].
  destruct res as [[res_start res_end] | ]; cbn; [ | intros [x Hx]; discriminate].
  destruct io; cbn; [ | intros [x Hx]; discriminate].
  destruct (Z.eqb_spec err 0) as [-> | Herr]; cbn; [ | intros [x Hx]; discriminate].
  intros _. unfold addr_translator_remove. cbn.
  destruct (decide _) as [_ | Hne]; [reflexivity | contradiction].
Qed.

Lemma probe_remove_round_trip_witness :
  addr_translator_remove
    (addr_translator_probe (KernelAnswers true true 0)
       (PlatformDevice (Some (0xF0000000, 0xF0000FFF)) None 0 [] false)).2
  = (0, PlatformDevice (Some (0xF0000000, 0xF0000FFF)) None 0 [] false).
Proof.
  apply probe_remove_round_trip; [reflexivity | reflexivity | ].
  vm_compute. eexists. reflexivity.
Defined.

(** X18: when the window is mapped and [sysfs_create_group] then fails,
    [addr_translator_probe] returns that error with the driver data cleared
    and the window still mapped, and [addr_translator_remove] afterwards
    returns [-EINVAL] and changes nothing. *)
Theorem probe_sysfs_failure
    (k : kernel_answers) (pdev : platform_device) (res_start res_end : Z) :
  kzalloc_ok k = true ->
  mem_resource pdev = Some (res_start, res_end) ->
  ioremap_ok k = true ->
  sysfs_create_group_err k <> 0 ->
  (addr_translator_probe k pdev).1 = sysfs_create_group_err k /\
  drvdata (addr_translator_probe k pdev).2 = None /\
  iomapped (addr_translator_probe k pdev).2
  = (res_start, (res_end - res_start + 1) mod 2 ^ 64) :: iomapped pdev /\
  addr_translator_remove (addr_translator_probe k pdev).2
  = (- EINVAL, (addr_translator_probe k pdev).2).
Proof.
  intros Hkz Hres Hio Herr. unfold addr_translator_probe.
  destruct k as [kz io err]. destruct pdev as [res dd n maps grp]. cbn in *. subst.
  cbn. destruct (Z.eqb_spec err 0) as [ | _]; [contradiction | ]. cbn.
  repeat split; reflexivity.
Qed.

Lemma probe_sysfs_failure_witness :
  (addr_translator_probe (KernelAnswers true true (-12))
     (PlatformDevice (Some (0xF0000000, 0xF0000FFF)) None 0 [] false)).1 = -12 /\
  iomapped (addr_translator_probe (KernelAnswers true true (-12))
              (PlatformDevice (Some (0xF0000000, 0xF0000FFF)) None 0 [] false)).2
  = [(0xF0000000, 0x1000)].
Proof.
  destruct (probe_sysfs_failure (KernelAnswers true true (-12))
              (PlatformDevice (Some (0xF0000000, 0xF0000FFF)) None 0 [] false)
              0xF0000000 0xF0000FFF eq_refl eq_refl eq_refl ltac:(discriminate))
    as (Hret & _ & Hmap & _).
  split; [exact Hret | exact Hmap].
Defined.
